(** * HangAI: recommendation resolution and caching pipeline

    A shallow embedding of [hangai.py] and the properties of its core:
    geocode retry, mood detection, the Overpass fetch with its cache,
    the cross-mood aggregation and the user-profile mutations.

    Conventions of the embedding.
    - A Python [float] is a rational ([Q]): every finite double is one, and
      the comparisons the program makes on them ([<], [>], truthiness) are
      the comparisons of their exact values.
    - [round(x, 4)] is represented by the integer number of 1e-4 units it
      denotes ([round4]); the double that Python returns is the one nearest
      to that many ten-thousandths, so the two determine each other.
    - The external world (the Overpass endpoint, the Nominatim geocoder,
      the clock) is explicit state: providers are oracles indexed by the
      number of calls made so far, and [time.sleep] appends to a log.
    - [geodesic] and TextBlob's polarity are library functions of the
      program's dependencies; they are section variables. *)

From Stdlib Require Import ZArith QArith Qabs Lqa String Ascii List Sorted Lia.
From stdpp Require Import gmap strings list fin_maps.

Local Open Scope Z_scope.

(** ** Constants *)

Definition DEFAULT_SEARCH_RADIUS_M : Z := 2500.
Definition MAX_HISTORY_SIZE : nat := 50.

(** ** Moods and the tag catalog *)

(** The keys of [MOOD_TAGS_EXTENDED], in the order of the dict literal. *)
Inductive mood : Type := happy | sad | adventurous.

#[global] Instance mood_eq_dec : EqDecision mood.
Proof. solve_decision. Defined.

Definition mood_to_nat (m : mood) : nat :=
  match m with happy => 0%nat | sad => 1%nat | adventurous => 2%nat end.

Definition mood_of_nat (n : nat) : mood :=
  match n with O => happy | S O => sad | _ => adventurous end.

#[global] Instance mood_countable : Countable mood.
Proof.
  apply (inj_countable' mood_to_nat mood_of_nat).
  intros []; reflexivity.
Defined.

Definition MOOD_KEYS : list mood := [happy; sad; adventurous].

Definition mood_name (m : mood) : string :=
  match m with
  | happy => "happy"
  | sad => "sad"
  | adventurous => "adventurous"
  end.

Definition MOOD_TAGS_EXTENDED (m : mood) : list (string * string) :=
  match m with
  | happy => [("amenity", "cafe"); ("amenity", "restaurant");
              ("bar", "yes"); ("shop", "bakery")]
  | sad => [("leisure", "park"); ("amenity", "library");
            ("place_of_worship", "church")]
  | adventurous => [("leisure", "amusement_park"); ("sport", "climbing");
                    ("leisure", "sports_centre")]
  end%string.

(** ** Places and provider elements *)

Definition coords : Type := Q * Q.

Record Place := mkPlace {
  name : string;
  lat : Q;
  lon : Q;
  distance : Q;
  tags : gmap string string
}.

(** The [center] object of an Overpass area feature. *)
Record center := mkCenter {
  center_lat : option Q;
  center_lon : option Q
}.

(** One entry of the response's [elements]; every key is optional. *)
Record element := mkElement {
  el_tags : option (gmap string string);
  el_lat : option Q;
  el_lon : option Q;
  el_center : option center
}.

(** The decoded JSON body: [data.get("elements", [])]. *)
Record overpass_data := mkData {
  elements : option (list element)
}.

(** What one [requests.get ... raise_for_status ... json] attempt does. *)
Inductive response : Type :=
  | Json (d : overpass_data)
  | RequestException.

(** What one rate-limited [geocode(address, timeout=...)] call does. *)
Inductive geocode_outcome : Type :=
  | Located (latitude longitude : Q)
  | NotLocated
  | GeocodeError.

(** ** Cache key *)

(** Round half to even, to the nearest integer. *)
Definition round_half_even (x : Q) : Z :=
  let n := Qnum x in
  let d := Zpos (Qden x) in
  let f := n / d in
  let r := n mod d in
  match (2 * r ?= d) with
  | Lt => f
  | Gt => f + 1
  | Eq => if Z.even f then f else f + 1
  end.

(** [round(x, 4)], in units of 1e-4. *)
Definition round4 (x : Q) : Z := round_half_even (x * (10000 # 1))%Q.

Definition cache_key : Type := Z * Z * mood * Z.

Definition make_cache_key (c : coords) (m : mood) (radius_m : Z) : cache_key :=
  (round4 (fst c), round4 (snd c), m, radius_m).

(** ** The world: cache, providers' call counters, sleep log *)

Record world := mkWorld {
  CACHE : gmap cache_key (list Place);
  requests_made : nat;
  geocodes_made : nat;
  slept : list Q
}.

(** [time.sleep(secs)], for a delay that it accepts: not negative, and
    short enough for the clock ([sleepable] below). The delays of
    [fetch_overpass] and of [retry_geocode] with its defaults are such
    constants; where the delay is a free parameter the statements assume
    it. Outside that range [time.sleep] raises. *)
Definition sleep (secs : Q) (w : world) : world :=
  {| CACHE := CACHE w; requests_made := requests_made w;
     geocodes_made := geocodes_made w; slept := slept w ++ [secs] |}.

Definition count_request (w : world) : world :=
  {| CACHE := CACHE w; requests_made := S (requests_made w);
     geocodes_made := geocodes_made w; slept := slept w |}.

Definition count_geocode (w : world) : world :=
  {| CACHE := CACHE w; requests_made := requests_made w;
     geocodes_made := S (geocodes_made w); slept := slept w |}.

Definition cache_put (k : cache_key) (v : list Place) (w : world) : world :=
  {| CACHE := <[k := v]> (CACHE w); requests_made := requests_made w;
     geocodes_made := geocodes_made w; slept := slept w |}.

(** [range(a, a + n)]. *)
Definition range (a : Z) (n : nat) : list Z :=
  map (fun i => a + Z.of_nat i) (seq 0 n).

(** ** Python truthiness of optional numbers *)

(** [None] and [0.0] are falsy, every other number is truthy. *)
Definition truthy (o : option Q) : bool :=
  match o with
  | Some q => negb (Qeq_bool q 0)
  | None => false
  end.

(** [a or b]. *)
Definition py_or (a b : option Q) : option Q :=
  if truthy a then a else b.

(** ** Stable sort by distance ([list.sort] and [sorted] with
       [key=lambda x: x["distance"]]) *)

Fixpoint insert_by_distance (p : Place) (l : list Place) : list Place :=
  match l with
  | [] => [p]
  | q :: r =>
      if Qle_bool (distance p) (distance q) then p :: q :: r
      else q :: insert_by_distance p r
  end.

Fixpoint sort_by_distance (l : list Place) : list Place :=
  match l with
  | [] => []
  | p :: r => insert_by_distance p (sort_by_distance r)
  end.

(** ** Overpass API fetch *)

Section Fetch.

(** [geodesic(a, b).km] of geopy. *)
Variable geodesic_km : coords -> coords -> Q.

(** The Overpass endpoint: the response to the n-th request made. *)
Variable overpass : nat -> response.

Definition fetch_retries : Z := 3.

(** The [for attempt in range(1, retries + 1)] loop of [fetch_overpass];
    [None] is [data is None] after the loop. *)
Fixpoint request_loop (attempts : list Z) (w : world)
  : option overpass_data * world :=
  match attempts with
  | [] => (None, w)
  | attempt :: rest =>
      let w1 := count_request w in
      match overpass (requests_made w) with
      | Json d => (Some d, w1)
      | RequestException =>
          let w2 := if attempt <? fetch_retries
                    then sleep (inject_Z (2 ^ attempt)) w1 else w1 in
          request_loop rest w2
      end
  end.

(** The body of [for el in data.get("elements", [])]: the place appended
    for [el], if any. *)
Definition place_of_element (origin : coords) (el : element)
  : option Place :=
  let tags_or_empty := default ∅ (el_tags el) in
  let nm := default "Unnamed"%string (tags_or_empty !! "name"%string) in
  let c := default (mkCenter None None) (el_center el) in
  let lat_p := py_or (el_lat el) (center_lat c) in
  let lon_p := py_or (el_lon el) (center_lon c) in
  if truthy lat_p && truthy lon_p then
    match lat_p, lon_p with
    | Some la, Some lo =>
        Some (mkPlace nm la lo (geodesic_km origin (la, lo)) tags_or_empty)
    | _, _ => None
    end
  else None.

Definition places_of_data (origin : coords) (d : overpass_data)
  : list Place :=
  omap (place_of_element origin) (default [] (elements d)).

(** [fetch_overpass]. The query text built from the mood's tags is what
    is sent with each request; the endpoint here answers by the number of
    the request, so the text does not appear. *)
Definition fetch_overpass (c : coords) (m : mood) (radius_m : Z) (w : world)
  : list Place * world :=
  let key := make_cache_key c m radius_m in
  match CACHE w !! key with
  | Some cached => (cached, w)
  | None =>
      match request_loop (range 1 (Z.to_nat fetch_retries)) w with
      | (None, w') => ([], w')
      | (Some d, w') =>
          let places := sort_by_distance (places_of_data c d) in
          (places, cache_put key places w')
      end
  end.

End Fetch.

(** ** Robust geocode with retry *)

Section Geocode.

(** The rate-limited Nominatim call: the outcome of the n-th call made. *)
Variable geocoder : nat -> geocode_outcome.

(** The [for attempt in range(1, retries + 1)] loop of [retry_geocode].
    Both the falsy [location] and the [except Exception] branch fall
    through to [time.sleep(delay); delay *= 2]. *)
Fixpoint geocode_loop (attempts : list Z) (delay : Q) (w : world)
  : option coords * world :=
  match attempts with
  | [] => (None, w)
  | _ :: rest =>
      let w1 := count_geocode w in
      match geocoder (geocodes_made w) with
      | Located la lo => (Some (la, lo), w1)
      | NotLocated => geocode_loop rest (delay * 2)%Q (sleep delay w1)
      | GeocodeError => geocode_loop rest (delay * 2)%Q (sleep delay w1)
      end
  end.

Definition retry_geocode_with (retries : nat) (initial_delay : Q) (w : world)
  : option coords * world :=
  geocode_loop (range 1 retries) initial_delay w.

(** [retry_geocode(address)] with the default [retries = 5] and
    [initial_delay = 2.0]. *)
Definition retry_geocode (w : world) : option coords * world :=
  retry_geocode_with 5 (2 # 1) w.

End Geocode.

(** ** Mood detection *)

Definition lower_ascii (c : ascii) : ascii :=
  let n := nat_of_ascii c in
  if (65 <=? n)%nat && (n <=? 90)%nat then ascii_of_nat (n + 32) else c.

(** [str.lower()], on ASCII text. *)
Fixpoint lower (s : string) : string :=
  match s with
  | EmptyString => EmptyString
  | String c r => String (lower_ascii c) (lower r)
  end.

(** [needle in haystack] on strings. *)
Fixpoint contains (needle haystack : string) : bool :=
  match haystack with
  | EmptyString => String.prefix needle EmptyString
  | String _ r => String.prefix needle haystack || contains needle r
  end.

(** The doubles that the literals [0.4] and [-0.2] denote. *)
Definition double_0_4 : Q := 3602879701896397 # 9007199254740992.
Definition double_neg_0_2 : Q := -3602879701896397 # 18014398509481984.

Definition Qlt_bool (a b : Q) : bool :=
  match (a ?= b)%Q with Lt => true | _ => false end.

Section MoodDetection.

(** [TextBlob(text).sentiment.polarity]. *)
Variable polarity : string -> Q.

(** [list(set(moods))]: the order in which a Python set is listed is
    not specified; all that is known is that the elements are the same,
    each once. *)
Variable list_of_set : list mood -> list mood.
Hypothesis list_of_set_spec :
  forall l, NoDup (list_of_set l) /\ forall m, In m (list_of_set l) <-> In m l.

(** [[mood for mood in MOOD_TAGS_EXTENDED if mood in lowered]]. *)
Definition literal_moods (user_input : string) : list mood :=
  List.filter (fun m => contains (mood_name m) (lower user_input)) MOOD_KEYS.

Definition detect_moods_from_text (user_input : string) : list mood :=
  let moods := literal_moods user_input in
  let moods :=
    match moods with
    | [] =>
        let p := polarity user_input in
        if Qlt_bool double_0_4 p then [happy]
        else if Qlt_bool p double_neg_0_2 then [sad]
        else [adventurous]
    | _ => moods
    end in
  list_of_set moods.

End MoodDetection.

(** ** [MoodInPlace] *)

Definition MoodInPlace (place_tags : gmap string string) (m : mood) : bool :=
  existsb (fun kv => bool_decide (place_tags !! fst kv = Some (snd kv)))
          (MOOD_TAGS_EXTENDED m).

(** ** Aggregation across moods (in [main]) *)

(** [unique_places] is a dict keyed by name; a Python dict lists its keys
    in order of first insertion, and assigning to an existing key keeps its
    position. *)
Definition name_dict : Type := list (string * Place).

Fixpoint dict_get (k : string) (d : name_dict) : option Place :=
  match d with
  | [] => None
  | (k', v) :: r => if String.eqb k k' then Some v else dict_get k r
  end.

Fixpoint dict_set (k : string) (v : Place) (d : name_dict) : name_dict :=
  match d with
  | [] => [(k, v)]
  | (k', v') :: r =>
      if String.eqb k k' then (k, v) :: r else (k', v') :: dict_set k v r
  end.

Definition dict_values (d : name_dict) : list Place := map snd d.

(** One iteration of [for p in all_places]. *)
Definition unique_step (unique_places : name_dict) (p : Place) : name_dict :=
  match dict_get (name p) unique_places with
  | None => dict_set (name p) p unique_places
  | Some q =>
      if Qlt_bool (distance p) (distance q)
      then dict_set (name p) p unique_places
      else unique_places
  end.

Definition unique_places_of (all_places : list Place) : name_dict :=
  fold_left unique_step all_places [].

Definition combined_places_of (all_places : list Place) : list Place :=
  sort_by_distance (dict_values (unique_places_of all_places)).

(** [Aggregator.combine]: the per-mood lists are concatenated by
    [all_places.extend] and then deduplicated and sorted. *)
Definition combine (per_mood_lists : list (list Place)) : list Place :=
  combined_places_of (concat per_mood_lists).

(** ** Exceptions *)

Inductive exn : Type :=
  | KeyError
  | AttributeError
  | EvalError
  | UnicodeDecodeError
  | OSError.

Inductive result (A : Type) : Type :=
  | Ok (a : A)
  | Raise (e : exn).
Arguments Ok {A} a.
Arguments Raise {A} e.

#[global] Instance result_ret : MRet result := fun A a => Ok a.

#[global] Instance result_bind : MBind result := fun A B k r =>
  match r with
  | Ok a => k a
  | Raise e => Raise e
  end.

(** ** Cache loading *)

(** What [open(CACHE_FILE)] and [json.load] find. A document that is a JSON
    object carries its items in file order, with the place lists that
    [save_cache] writes as values; of any other document (array, string,
    number, [true], [false], [null]) only the kind matters. A file can
    also fail before any JSON is seen: [open] raises an [OSError] other
    than [FileNotFoundError] (no permission, a directory), or the bytes are
    not valid text ([UnicodeDecodeError], which is a [ValueError] but not a
    [JSONDecodeError]). *)
Inductive cache_file : Type :=
  | FileMissing
  | FileNotJson
  | FileJsonObject (items : list (string * list Place))
  | FileJsonOther
  | FileUnreadable
  | FileNotText.

Section CacheLoading.

(** [eval(k)] on a stored key string: the key tuple, or [None] when the
    evaluation raises (a name, syntax or type error). *)
Variable py_eval : string -> option cache_key.

(** [{eval(k): v for k, v in items}]. *)
Fixpoint eval_items (items : list (string * list Place))
    (acc : gmap cache_key (list Place))
  : result (gmap cache_key (list Place)) :=
  match items with
  | [] => Ok acc
  | (k, v) :: r =>
      match py_eval k with
      | Some key => eval_items r (<[key := v]> acc)
      | None => Raise EvalError
      end
  end.

(** [load_cache]: the new value of [CACHE], or the exception that leaves
    the function. Only [FileNotFoundError] and [json.JSONDecodeError] are
    handled. *)
Definition load_cache (f : cache_file)
  : result (gmap cache_key (list Place)) :=
  match f with
  | FileMissing => Ok ∅
  | FileNotJson => Ok ∅
  | FileJsonOther => Raise AttributeError
  | FileJsonObject items => eval_items items ∅
  | FileUnreadable => Raise OSError
  | FileNotText => Raise UnicodeDecodeError
  end.

End CacheLoading.

(** ** The user profile *)

Record history_entry := mkEntry {
  input : string;
  detected_moods : list mood;
  timestamp : string
}.

(** A stored favorite: the dict [{"name": ..., "tags": ...}] that [main]
    appends, or a record of another shape, which the membership test of
    [main] skips with [isinstance(fav, dict)]. *)
Inductive favorite : Type :=
  | FavDict (fav_name : string) (fav_tags : gmap string string)
  | FavOther.

(** The profile dict. Each of its four keys may be missing from a stored
    profile: the code reads three of them through [setdefault] or [get]. *)
Record profile := mkProfile {
  history : option (list history_entry);
  favorites : option (gmap mood (list favorite));
  mood_usage : option (gmap mood Z);
  place_usage : option (gmap string Z)
}.

(** The default of [load_user_profile]. *)
Definition empty_profile : profile :=
  mkProfile (Some []) (Some ∅) (Some ∅) (Some ∅).

Definition set_history (p : profile) (h : list history_entry) : profile :=
  mkProfile (Some h) (favorites p) (mood_usage p) (place_usage p).

(** [l[-n:]] for a positive [n]. *)
Definition last_n {A : Type} (n : nat) (l : list A) : list A :=
  drop (length l - n) l.

(** [save_history]; the profile returned is the one handed to
    [save_user_profile], which writes it out and leaves it as it is. *)
Definition save_history (p : profile) (entry : history_entry)
  : result profile :=
  match history p with
  | None => Raise KeyError
  | Some h =>
      let h1 := h ++ [entry] in
      let h2 := if (MAX_HISTORY_SIZE <? length h1)%nat
                then last_n MAX_HISTORY_SIZE h1 else h1 in
      Ok (set_history p h2)
  end.

Definition update_usage_counters (p : profile) (m : mood) (place_name : string)
  : profile :=
  let mu := default ∅ (mood_usage p) in
  let pu := default ∅ (place_usage p) in
  mkProfile (history p) (favorites p)
    (Some (<[m := default 0 (mu !! m) + 1]> mu))
    (Some (<[place_name := default 0 (pu !! place_name) + 1]> pu)).

(** [profile["favorites"][mood]] once both [setdefault]s have run. *)
Definition fav_list_of (p : profile) (m : mood) : list favorite :=
  default [] (default ∅ (favorites p) !! m).

Definition set_fav_list (p : profile) (m : mood) (l : list favorite)
  : profile :=
  mkProfile (history p) (Some (<[m := l]> (default ∅ (favorites p))))
    (mood_usage p) (place_usage p).

(** [profile.setdefault("favorites", {}).setdefault(mood, [])]. *)
Definition setdefault_fav_list (p : profile) (m : mood) : profile :=
  set_fav_list p m (fav_list_of p m).

(** [any(fav["name"] == place_name for fav in fav_list
         if isinstance(fav, dict))]. *)
Definition any_named (place_name : string) (fav_list : list favorite) : bool :=
  existsb (fun fav =>
             match fav with
             | FavDict n _ => String.eqb n place_name
             | FavOther => false
             end) fav_list.

(** The [for place in combined_places] loop for one mood; the branch that
    appends ends the loop ([break]). *)
Fixpoint favorites_loop (m : mood) (places : list Place) (p : profile)
  : profile :=
  match places with
  | [] => p
  | place :: rest =>
      if MoodInPlace (tags place) m then
        if negb (any_named (name place) (fav_list_of p m)) then
          update_usage_counters
            (set_fav_list p m
               (fav_list_of p m ++ [FavDict (name place) (tags place)]))
            m (name place)
        else favorites_loop m rest p
      else favorites_loop m rest p
  end.

(** One iteration of [for mood in moods]. *)
Definition favorites_for_mood (combined_places : list Place)
    (p : profile) (m : mood) : profile :=
  favorites_loop m combined_places (setdefault_fav_list p m).

(** The whole [for mood in moods] block that ends a search. *)
Definition update_favorites (moods : list mood) (combined_places : list Place)
    (p : profile) : profile :=
  fold_left (favorites_for_mood combined_places) moods p.

(** [[fav for fav in favs if fav.get("name") != place_name]]; a record
    that is not a dict has no [get]. *)
Fixpoint without_name (place_name : string) (favs : list favorite)
  : result (list favorite) :=
  match favs with
  | [] => Ok []
  | FavDict n t :: r =>
      r' ← without_name place_name r;
      Ok (if String.eqb n place_name then r' else FavDict n t :: r')
  | FavOther :: _ => Raise AttributeError
  end.

Definition remove_favorite (p : profile) (m : mood) (place_name : string)
  : result profile :=
  match default ∅ (favorites p) !! m with
  | Some favs =>
      favs' ← without_name place_name favs;
      Ok (set_fav_list p m favs')
  | None => Ok p
  end.

(** ** One search (choice 1 of [main]) *)

Section Search.

Variable geodesic_km : coords -> coords -> Q.
Variable overpass : nat -> response.

(** [for mood in moods: all_places.extend(fetch_overpass(...))]. *)
Fixpoint fetch_all (user_loc : coords) (moods : list mood) (radius_m : Z)
    (w : world) : list Place * world :=
  match moods with
  | [] => ([], w)
  | m :: rest =>
      let (places, w1) := fetch_overpass geodesic_km overpass
                            user_loc m radius_m w in
      let (more, w2) := fetch_all user_loc rest radius_m w1 in
      (places ++ more, w2)
  end.

(** From the fetches to [save_user_profile]; with no place found the
    loop continues and the profile is left alone. *)
Definition recommend (user_loc : coords) (user_input : string)
    (moods : list mood) (radius_m : Z) (now : string)
    (p : profile) (w : world) : result (profile * world) :=
  let (all_places, w') := fetch_all user_loc moods radius_m w in
  let combined_places := combined_places_of all_places in
  match combined_places with
  | [] => Ok (p, w')
  | _ =>
      p1 ← save_history p (mkEntry user_input moods now);
      Ok (update_favorites moods combined_places p1, w')
  end.

End Search.

(** ** Vocabulary of the statements *)

(** Two coordinate pairs within the resolution of the cache key of each
    other: each coordinate differs by at most 1e-4 degree, which is about
    11 m along a meridian. *)
Definition within_resolution (c1 c2 : coords) : Prop :=
  (Qabs (fst c1 - fst c2) <= 1 # 10000)%Q
  /\ (Qabs (snd c1 - snd c2) <= 1 # 10000)%Q.

(** An upper bound, in metres, on the great-circle distance between two
    points of one meridian that are [dlat] degrees apart, on a sphere of
    the Earth's mean radius (355/113 exceeds pi). *)
Definition meridian_arc_bound_m (dlat : Q) : Q :=
  ((6371009 # 1) * dlat * (355 # 113) / (180 # 1))%Q.

(** A world in which nothing has happened yet. *)
Definition fresh_world : world := mkWorld ∅ 0 0 [].

(** [save_history] called once for each entry of a list, in order. *)
Fixpoint save_history_all (p : profile) (entries : list history_entry)
  : result profile :=
  match entries with
  | [] => Ok p
  | e :: r => p' ← save_history p e; save_history_all p' r
  end.

(** What the truncation of [save_history] leaves of a list. *)
Definition capped (l : list history_entry) : list history_entry :=
  if (MAX_HISTORY_SIZE <? length l)%nat then last_n MAX_HISTORY_SIZE l else l.

Definition by_distance (a b : Place) : Prop := (distance a <= distance b)%Q.

(** A place of the given name and distance, at the origin, without tags. *)
Definition place_named (n : string) (d : Q) : Place := mkPlace n 0 0 d ∅.

(** What the loop over [all_places] maintains: [d] has one entry per name
    seen, filed under its own name, and that entry is a seen place of the
    least distance among the seen places of that name. *)
Definition unique_inv (seen : list Place) (d : name_dict) : Prop :=
  NoDup (map fst d)
  /\ (forall k v, In (k, v) d ->
        name v = k /\ In v seen
        /\ forall q, In q seen -> name q = k -> by_distance v q)
  /\ (forall q, In q seen -> In (name q) (map fst d)).

(** [needle] occurs in [text] up to the case of letters: some substring of
    [text] lowercases to it. The mood names are lowercase. *)
Definition occurs_ignoring_case (needle text : string) : Prop :=
  exists a w b, text = (a ++ w ++ b)%string /\ lower w = needle.

(** An attempt that does not yield a location: an empty result or an
    exception of the provider. *)
Definition geocode_failed (o : geocode_outcome) : Prop :=
  o = NotLocated \/ o = GeocodeError.

(** The first [k] delays of a backoff that starts at [delay] and doubles. *)
Fixpoint backoff (delay : Q) (k : nat) : list Q :=
  match k with
  | O => []
  | S k' => delay :: backoff (delay * 2)%Q k'
  end.

(** The names of the dict entries of a favorite list, in order. *)
Definition fav_names (l : list favorite) : list string :=
  omap (fun fav => match fav with
                   | FavDict n _ => Some n
                   | FavOther => None
                   end) l.

(** At most one favorite entry for each (mood, name) pair. *)
Definition favorites_unique (p : profile) : Prop :=
  forall m, NoDup (fav_names (fav_list_of p m)).

Definition is_fav_dict (fav : favorite) : Prop :=
  match fav with FavDict _ _ => True | FavOther => False end.

(** A profile of the shape the program itself writes: it has a history,
    and its favorites are all dicts with a name. *)
Definition well_formed (p : profile) : Prop :=
  is_Some (history p) /\ forall m, Forall is_fav_dict (fav_list_of p m).

(** The operations on a profile. *)
Inductive operation : Type :=
  | OpUpdateFavorites (moods : list mood) (combined_places : list Place)
  | OpRemoveFavorite (m : mood) (place_name : string)
  | OpSaveHistory (entry : history_entry)
  | OpUpdateUsage (m : mood) (place_name : string).

Definition apply_operation (p : profile) (op : operation) : result profile :=
  match op with
  | OpUpdateFavorites moods combined_places =>
      Ok (update_favorites moods combined_places p)
  | OpRemoveFavorite m place_name => remove_favorite p m place_name
  | OpSaveHistory entry => save_history p entry
  | OpUpdateUsage m place_name => Ok (update_usage_counters p m place_name)
  end.

Fixpoint apply_operations (p : profile) (ops : list operation)
  : result profile :=
  match ops with
  | [] => Ok p
  | op :: rest => p' ← apply_operation p op; apply_operations p' rest
  end.

(** The first place of the combined list that matches the mood and is not
    yet among the favorites of the mood. *)
Definition first_new_place (m : mood) (places : list Place)
    (favs : list favorite) : option Place :=
  List.find (fun place => MoodInPlace (tags place) m
                          && negb (any_named (name place) favs)) places.

(** The favorite that a search adds under a mood, as a list of length at
    most one. *)
Definition new_favorite (m : mood) (places : list Place) (p : profile)
  : list favorite :=
  match first_new_place m places (fav_list_of p m) with
  | Some place => [FavDict (name place) (tags place)]
  | None => []
  end.

Definition mood_count (p : profile) (m : mood) : Z :=
  default 0 (default ∅ (mood_usage p) !! m).

Definition place_count (p : profile) (n : string) : Z :=
  default 0 (default ∅ (place_usage p) !! n).

(** How many of the moods get a new favorite of the given name. *)
Definition moods_adding (n : string) (moods : list mood)
    (places : list Place) (p : profile) : nat :=
  length (List.filter
            (fun m => bool_decide (n ∈ fav_names (new_favorite m places p)))
            moods).

(** ** Sample data *)

Definition central_perk : Place :=
  mkPlace "Central Perk" (1 # 2) (1 # 3) (4 # 10) {[ "amenity" := "cafe" ]}%string.

Definition green_park : Place :=
  mkPlace "Green Park" (1 # 2) (1 # 4) (1 # 1) {[ "leisure" := "park" ]}%string.

Definition sample_places : list Place := [central_perk; green_park].

Definition sample_entry (i : nat) : history_entry :=
  mkEntry (String (ascii_of_nat (48 + i)) EmptyString) [happy] "2024-01-01T00:00:00".

(** Fifty-one history entries, told apart by their input. *)
Definition sample_entries : list history_entry := map sample_entry (seq 0 51).

Definition sample_operations : list operation :=
  [OpUpdateFavorites [happy; sad] sample_places;
   OpSaveHistory (sample_entry 0);
   OpUpdateFavorites [happy] sample_places;
   OpRemoveFavorite sad "Green Park";
   OpUpdateFavorites [sad; happy] sample_places].

(** ** Vocabulary of the further properties *)

(** Every list in the cache is in ascending order of distance. *)
Definition cache_sorted (w : world) : Prop :=
  forall k v, CACHE w !! k = Some v -> StronglySorted by_distance v.

(** The places of a list that lie at distance [d], in the order of the
    list. *)
Definition at_distance (d : Q) (l : list Place) : list Place :=
  List.filter (fun p => Qeq_bool (distance p) d) l.

(** A favorite that is a dict with the given name. *)
Definition is_named (n : string) (fav : favorite) : bool :=
  match fav with
  | FavDict n0 _ => String.eqb n0 n
  | FavOther => false
  end.

(** The sum of a list of delays. *)
Definition total_seconds (l : list Q) : Q := fold_right Qplus 0%Q l.

(** How often a mood occurs in a list of moods. *)
Definition occurrences (m : mood) (moods : list mood) : nat :=
  length (List.filter (fun m' => bool_decide (m' = m)) moods).

(** ** Saving the cache *)

(** [d[k] = v] on the items of a JSON object under construction: an
    existing key keeps its place and takes the new value. *)
Fixpoint items_set (k : string) (v : list Place)
    (d : list (string * list Place)) : list (string * list Place) :=
  match d with
  | [] => [(k, v)]
  | (k', v') :: r =>
      if String.eqb k k' then (k, v) :: r else (k', v') :: items_set k v r
  end.

Section CacheSaving.

(** [str(k)] of a key tuple. *)
Variable py_str : cache_key -> string.

(** [save_cache]: the document that [json.dump] writes for
    [{str(k): v for k, v in CACHE.items()}]. The keys are taken in the
    order in which the map lists them. *)
Definition save_cache (cache : gmap cache_key (list Place)) : cache_file :=
  FileJsonObject
    (fold_left (fun d kv => items_set (py_str (fst kv)) (snd kv) d)
               (map_to_list cache) []).

End CacheSaving.

(** ** Manual mood selection *)

(** The ASCII characters that [str.strip] and [str.split] treat as
    whitespace: tab to carriage return, the four separators, the space.
    The functions of this part are those of Python on ASCII lines
    ([is_ascii] below); beyond ASCII, [str] has more whitespace and more
    digits than these. *)
Definition is_space (c : ascii) : bool :=
  let n := nat_of_ascii c in
  ((9 <=? n)%nat && (n <=? 13)%nat) || ((28 <=? n)%nat && (n <=? 32)%nat).

Fixpoint lstrip (s : string) : string :=
  match s with
  | EmptyString => EmptyString
  | String c r => if is_space c then lstrip r else s
  end.

Fixpoint rstrip (s : string) : string :=
  match s with
  | EmptyString => EmptyString
  | String c r =>
      match rstrip r with
      | EmptyString => if is_space c then EmptyString else String c EmptyString
      | r' => String c r'
      end
  end.

(** [str.strip()]. *)
Definition strip (s : string) : string := rstrip (lstrip s).

(** [s.replace(',', ' ')]. *)
Fixpoint replace_commas (s : string) : string :=
  match s with
  | EmptyString => EmptyString
  | String c r =>
      String (if Ascii.eqb c ","%char then " "%char else c) (replace_commas r)
  end.

(** [str.split()]: the maximal runs of characters that are not
    whitespace; [cur] is the run being read. *)
Fixpoint split_from (s : string) (cur : string) : list string :=
  match s with
  | EmptyString =>
      match cur with EmptyString => [] | _ => [cur] end
  | String c r =>
      if is_space c then
        match cur with
        | EmptyString => split_from r EmptyString
        | _ => cur :: split_from r EmptyString
        end
      else split_from r (cur ++ String c EmptyString)
  end.

Definition split (s : string) : list string := split_from s EmptyString.

Definition is_digit (c : ascii) : bool :=
  let n := nat_of_ascii c in (48 <=? n)%nat && (n <=? 57)%nat.

Fixpoint all_digits (s : string) : bool :=
  match s with
  | EmptyString => true
  | String c r => is_digit c && all_digits r
  end.

(** [str.isdigit()], on ASCII text: there the digits are [0] to [9], and
    [int] accepts every string of them up to its length limit. *)
Definition isdigit (s : string) : bool :=
  match s with
  | EmptyString => false
  | _ => all_digits s
  end.

(** The value of a string of decimal digits, read after [acc]. *)
Fixpoint decimal_value (s : string) (acc : Z) : Z :=
  match s with
  | EmptyString => acc
  | String c r => decimal_value r (10 * acc + Z.of_nat (nat_of_ascii c - 48))
  end.

(** What [int(...)] gives: a value, or [ValueError]. *)
Inductive parsed (A : Type) : Type :=
  | Parsed (a : A)
  | ValueError.
Arguments Parsed {A} a.
Arguments ValueError {A}.

Section ManualSelection.

(** [sys.get_int_max_str_digits()]: the longest digit string that [int]
    converts, 4300 unless configured; 0 means no limit. *)
Variable int_max_str_digits : nat.

(** [list(selected)] for the set of selected names. *)
Variable list_of_name_set : list string -> list string.

(** [int(token)] for a token that [isdigit]. *)
Definition py_int (token : string) : parsed Z :=
  if (0 <? int_max_str_digits)%nat
     && (int_max_str_digits <? String.length token)%nat
  then ValueError
  else Parsed (decimal_value token 0).

(** The [for token in ...] loop; [selected] holds the names added to the
    set so far, in the order of the additions. *)
Fixpoint select_tokens (available_moods : list string) (tokens : list string)
    (selected : list string) : parsed (list string) :=
  match tokens with
  | [] => Parsed selected
  | token :: rest =>
      if isdigit token then
        match py_int token with
        | ValueError => ValueError
        | Parsed n =>
            let idx := n - 1 in
            if (0 <=? idx) && (idx <? Z.of_nat (length available_moods))
            then select_tokens available_moods rest
                   (selected ++ [nth (Z.to_nat idx) available_moods
                                     EmptyString])
            else select_tokens available_moods rest selected
        end
      else if existsb (String.eqb token) available_moods
           then select_tokens available_moods rest (selected ++ [token])
           else select_tokens available_moods rest selected
  end.

(** [manual_mood_selection], given the line that [input] returns. *)
Definition manual_mood_selection (available_moods : list string)
    (typed : string) : parsed (list string) :=
  let user_input := lower (strip typed) in
  match user_input with
  | EmptyString => Parsed (take 1 available_moods)
  | _ =>
      match select_tokens available_moods
              (split (replace_commas user_input)) [] with
      | ValueError => ValueError
      | Parsed [] => Parsed (take 1 available_moods)
      | Parsed selected => Parsed (list_of_name_set selected)
      end
  end.

(** [list(MOOD_TAGS_EXTENDED.keys())]. *)
Definition MOOD_NAMES : list string := map mood_name MOOD_KEYS.

(** The choice of moods in [main]: the manual selection, and the detected
    moods if that selection is empty. *)
Definition choose_moods (auto_moods : list string) (typed : string)
  : parsed (list string) :=
  match manual_mood_selection MOOD_NAMES typed with
  | Parsed [] => Parsed auto_moods
  | chosen => chosen
  end.

End ManualSelection.

(** ** More sample data *)

(** A distance stub: the longitude of the place. *)
Definition by_longitude (origin place : coords) : Q := snd place.

Definition cafe_at (lo : Q) : element :=
  mkElement (Some {[ "amenity" := "cafe" ]}%string) (Some (1 # 1)%Q) (Some lo)
            None.

Definition three_cafes : overpass_data :=
  mkData (Some [cafe_at (5 # 10); cafe_at (12 # 10); cafe_at (3 # 10)]).

(** A provider whose first answer is an error and whose later answers
    are the three cafes. *)
Definition flaky_overpass (n : nat) : response :=
  match n with
  | O => RequestException
  | S _ => Json three_cafes
  end.

Definition origin_key : cache_key := make_cache_key (0, 0)%Q happy 2500.

Definition warm_world : world := cache_put origin_key [central_perk] fresh_world.

(** ** Ranges in which the model is the code *)

(** A line of ASCII characters only. *)
Fixpoint is_ascii (s : string) : bool :=
  match s with
  | EmptyString => true
  | String c r => (nat_of_ascii c <? 128)%nat && is_ascii r
  end.

(** Seconds below the 2^63 nanoseconds that the clock of [time.sleep]
    can hold (about 9.22e9 seconds). *)
Definition max_sleep_seconds : Q := 9000000000 # 1.

(** A delay that [time.sleep] accepts. *)
Definition sleepable (secs : Q) : Prop :=
  (0 <= secs)%Q /\ (secs <= max_sleep_seconds)%Q.

(** * Properties *)

(** ** Fetching: retries and the cache *)

Section FetchFacts.

Variable geodesic_km : coords -> coords -> Q.
Variable overpass : nat -> response.

Lemma request_loop_requests_mono attempts w :
  (requests_made w <=
   requests_made (snd (request_loop overpass attempts w)))%nat.
Proof.
  revert w. induction attempts as [|a rest IH]; intros w; simpl; [lia|].
  destruct (overpass (requests_made w)); simpl; [lia|].
  etransitivity; [|apply IH].
  destruct (a <? fetch_retries); simpl; lia.
Qed.

Lemma request_loop_requests_lt a rest w :
  (requests_made w <
   requests_made (snd (request_loop overpass (a :: rest) w)))%nat.
Proof.
  simpl. destruct (overpass (requests_made w)); simpl; [lia|].
  eapply Nat.lt_le_trans; [|apply request_loop_requests_mono].
  destruct (a <? fetch_retries); simpl; lia.
Qed.

Lemma fetch_overpass_miss_requests c m radius w :
  CACHE w !! make_cache_key c m radius = None ->
  (requests_made w <
   requests_made (snd (fetch_overpass geodesic_km overpass c m radius w)))%nat.
Proof.
  intros Hmiss. unfold fetch_overpass. rewrite Hmiss.
  pose proof (request_loop_requests_lt 1 [2; 3] w) as Hlt.
  change (range 1 (Z.to_nat fetch_retries)) with [1; 2; 3].
  destruct (request_loop overpass [1; 2; 3] w) as [[d|] w']; simpl in *; lia.
Qed.

Lemma fetch_overpass_hit c m radius w cached :
  CACHE w !! make_cache_key c m radius = Some cached ->
  fetch_overpass geodesic_km overpass c m radius w = (cached, w).
Proof. intros Hhit. unfold fetch_overpass. now rewrite Hhit. Qed.

(** C1. With the key absent and the three attempts all failing,
    [fetch_overpass] returns the empty list, leaves the cache as it was
    (so the key stays absent), has made exactly three requests with
    sleeps of 2 and 4 seconds in between, and a later call with the same
    key goes to the provider again. *)
Theorem fetch_overpass_all_attempts_fail c m radius w :
  CACHE w !! make_cache_key c m radius = None ->
  (forall i, (i < 3)%nat ->
             overpass (requests_made w + i) = RequestException) ->
  exists w',
    fetch_overpass geodesic_km overpass c m radius w = ([], w')
    /\ CACHE w' = CACHE w
    /\ CACHE w' !! make_cache_key c m radius = None
    /\ requests_made w' = (requests_made w + 3)%nat
    /\ slept w' = slept w ++ [2 # 1; 4 # 1]
    /\ forall c2,
         make_cache_key c2 m radius = make_cache_key c m radius ->
         (requests_made w' <
          requests_made
            (snd (fetch_overpass geodesic_km overpass c2 m radius w')))%nat.
Proof.
  intros Hmiss Hfail.
  pose proof (Hfail 0%nat ltac:(lia)) as H0.
  pose proof (Hfail 1%nat ltac:(lia)) as H1.
  pose proof (Hfail 2%nat ltac:(lia)) as H2.
  rewrite Nat.add_0_r in H0.
  replace (requests_made w + 1)%nat with (S (requests_made w)) in H1 by lia.
  replace (requests_made w + 2)%nat with (S (S (requests_made w))) in H2 by lia.
  set (w' := count_request
               (sleep (inject_Z (2 ^ 2))
                  (count_request
                     (sleep (inject_Z (2 ^ 1)) (count_request w))))).
  exists w'. split; [|split; [|split; [|split; [|split]]]].
  - unfold fetch_overpass. rewrite Hmiss.
    change (range 1 (Z.to_nat fetch_retries)) with [1; 2; 3].
    simpl. rewrite H0. simpl. rewrite H1. simpl. rewrite H2. reflexivity.
  - reflexivity.
  - exact Hmiss.
  - simpl. lia.
  - simpl. now rewrite <- app_assoc.
  - intros c2 Hkey.
    apply (fetch_overpass_miss_requests c2 m radius w').
    rewrite Hkey. exact Hmiss.
Qed.

End FetchFacts.

Lemma fetch_overpass_all_attempts_fail_witness :
  CACHE fresh_world !! make_cache_key (0, 0)%Q happy 2500 = None
  /\ exists w',
      fetch_overpass (fun _ _ => 0%Q) (fun _ => RequestException)
        (0, 0)%Q happy 2500 fresh_world = ([], w')
      /\ CACHE w' = CACHE fresh_world
      /\ CACHE w' !! make_cache_key (0, 0)%Q happy 2500 = None
      /\ requests_made w' = (requests_made fresh_world + 3)%nat
      /\ slept w' = slept fresh_world ++ [2 # 1; 4 # 1]%Q
      /\ forall c2,
           make_cache_key c2 happy 2500 = make_cache_key (0, 0)%Q happy 2500 ->
           (requests_made w' <
            requests_made
              (snd (fetch_overpass (fun _ _ => 0%Q) (fun _ => RequestException)
                      c2 happy 2500 w')))%nat.
Proof.
  split; [reflexivity|].
  apply (fetch_overpass_all_attempts_fail
           (fun _ _ => 0%Q) (fun _ => RequestException)
           (0, 0)%Q happy 2500 fresh_world).
  - reflexivity.
  - intros i _. reflexivity.
Defined.

(** ** The cache key and the rounding of coordinates *)

Lemma round_half_even_near n d :
  0 < d ->
  let f := n / d in
  let r := n mod d in
  let k := match (2 * r ?= d) with
           | Lt => f
           | Gt => f + 1
           | Eq => if Z.even f then f else f + 1
           end in
  - d <= 2 * (n - k * d) <= d.
Proof.
  intros Hd f r k.
  pose proof (Z.div_mod n d ltac:(lia)) as Hdm.
  pose proof (Z.mod_pos_bound n d Hd) as Hr.
  fold f in Hdm. fold r in Hdm, Hr.
  subst k. destruct (Z.compare_spec (2 * r) d) as [He|Hl|Hg].
  - destruct (Z.even f); nia.
  - nia.
  - nia.
Qed.

Lemma round_half_even_bound (x : Q) :
  (Qabs (x - inject_Z (round_half_even x)) <= 1 # 2)%Q.
Proof.
  apply Qabs_Qle_condition.
  destruct x as [n d].
  pose proof (round_half_even_near n (Zpos d) ltac:(lia)) as H.
  unfold round_half_even. simpl in *.
  set (k := match (2 * (n mod Z.pos d) ?= Z.pos d) with
            | Eq => if Z.even (n / Z.pos d) then n / Z.pos d
                    else n / Z.pos d + 1
            | Lt => n / Z.pos d
            | Gt => n / Z.pos d + 1
            end) in *.
  clearbody k.
  unfold Qle, Qminus, Qplus, Qopp, inject_Z. simpl.
  split; nia.
Qed.

Lemma round4_same_close (x y : Q) :
  round4 x = round4 y -> (Qabs (x - y) <= 1 # 10000)%Q.
Proof.
  unfold round4. intros Heq.
  pose proof (round_half_even_bound (x * (10000 # 1))) as Hx.
  pose proof (round_half_even_bound (y * (10000 # 1))) as Hy.
  rewrite Heq in Hx.
  apply Qabs_Qle_condition in Hx. apply Qabs_Qle_condition in Hy.
  apply Qabs_Qle_condition.
  set (k := inject_Z (round_half_even (y * (10000 # 1)))) in *.
  clearbody k. split; lra.
Qed.

Section CacheKeyFacts.

Variable geodesic_km : coords -> coords -> Q.
Variable overpass : nat -> response.

Lemma request_loop_succeeds w :
  (exists i d, (i < 3)%nat /\ overpass (requests_made w + i) = Json d) ->
  exists d w', request_loop overpass [1; 2; 3] w = (Some d, w').
Proof.
  intros (i & d & Hi & Hd). simpl.
  destruct (overpass (requests_made w)) as [d0|] eqn:E0; [eauto|]. simpl.
  destruct (overpass (S (requests_made w))) as [d1|] eqn:E1; [eauto|]. simpl.
  destruct (overpass (S (S (requests_made w)))) as [d2|] eqn:E2; [eauto|].
  exfalso.
  assert (i = 0 \/ i = 1 \/ i = 2)%nat as [-> | [-> | ->]] by lia.
  - rewrite Nat.add_0_r in Hd. congruence.
  - replace (requests_made w + 1)%nat with (S (requests_made w)) in Hd by lia.
    congruence.
  - replace (requests_made w + 2)%nat with (S (S (requests_made w))) in Hd
      by lia.
    congruence.
Qed.

(** C2, as amended. Two coordinate pairs whose latitudes round to the
    same fourth decimal and whose longitudes do too (they then lie within
    1e-4 degree of each other in each coordinate) give the same cache key
    for a mood and radius; and once a search on the first has its result
    in the cache (it was there, or one of the three attempts succeeded),
    the search on the second returns that same list without touching the
    world. *)
Theorem same_rounding_cell_shares_cache_entry c1 c2 m radius w :
  round4 (fst c1) = round4 (fst c2) ->
  round4 (snd c1) = round4 (snd c2) ->
  within_resolution c1 c2
  /\ make_cache_key c1 m radius = make_cache_key c2 m radius
  /\ (is_Some (CACHE w !! make_cache_key c1 m radius)
      \/ (exists i d, (i < 3)%nat
                      /\ overpass (requests_made w + i) = Json d) ->
      let first := fetch_overpass geodesic_km overpass c1 m radius w in
      fetch_overpass geodesic_km overpass c2 m radius (snd first) = first).
Proof.
  intros Hlat Hlon.
  assert (Hkey : make_cache_key c1 m radius = make_cache_key c2 m radius).
  { unfold make_cache_key. now rewrite Hlat, Hlon. }
  split; [|split; [exact Hkey|]].
  - split; now apply round4_same_close.
  - intros Hpop first. subst first.
    destruct (CACHE w !! make_cache_key c1 m radius) as [cached|] eqn:Ec.
    + rewrite (fetch_overpass_hit _ _ c1 m radius w cached Ec). simpl.
      apply fetch_overpass_hit. now rewrite <- Hkey.
    + destruct Hpop as [[? Hs]|Hok]; [discriminate|].
      destruct (request_loop_succeeds w Hok) as (d & w' & Hloop).
      unfold fetch_overpass at 2 3. rewrite Ec.
      change (range 1 (Z.to_nat fetch_retries)) with [1; 2; 3].
      rewrite Hloop. simpl.
      apply fetch_overpass_hit. simpl. rewrite <- Hkey.
      apply lookup_insert_eq.
Qed.

End CacheKeyFacts.

Lemma same_rounding_cell_shares_cache_entry_witness :
  round4 (3 # 65536) = round4 (1 # 65536)
  /\ round4 0 = round4 0
  /\ within_resolution (3 # 65536, 0)%Q (1 # 65536, 0)%Q
  /\ make_cache_key (3 # 65536, 0)%Q happy 2500
     = make_cache_key (1 # 65536, 0)%Q happy 2500
  /\ (is_Some (CACHE fresh_world !! make_cache_key (3 # 65536, 0)%Q happy 2500)
      \/ (exists i d, (i < 3)%nat
                      /\ (fun _ : nat => Json (mkData (Some [])))
                           (requests_made fresh_world + i)%nat = Json d) ->
      let first := fetch_overpass (fun _ _ => 0%Q)
                     (fun _ => Json (mkData (Some [])))
                     (3 # 65536, 0)%Q happy 2500 fresh_world in
      fetch_overpass (fun _ _ => 0%Q) (fun _ => Json (mkData (Some [])))
        (1 # 65536, 0)%Q happy 2500 (snd first) = first).
Proof.
  split; [reflexivity|]. split; [reflexivity|].
  apply (same_rounding_cell_shares_cache_entry
           (fun _ _ => 0%Q) (fun _ => Json (mkData (Some [])))
           (3 # 65536, 0)%Q (1 # 65536, 0)%Q happy 2500 fresh_world);
    reflexivity.
Defined.

(** The claim C2 as written fails: two points of the meridian of
    Greenwich, 1/65536 degree (under two metres) apart, on either side of
    the rounding boundary at 0.00005 degrees, get different cache keys, and
    the search on the second goes to the provider although the first has
    just filled the cache. *)
Lemma nearby_coordinates_miss_cache :
  within_resolution (3 # 65536, 0)%Q (4 # 65536, 0)%Q
  /\ (meridian_arc_bound_m ((4 # 65536) - (3 # 65536)) < 2 # 1)%Q
  /\ make_cache_key (3 # 65536, 0)%Q happy 2500
     <> make_cache_key (4 # 65536, 0)%Q happy 2500
  /\ (let provider := fun _ : nat => Json (mkData (Some [])) in
      let first := fetch_overpass (fun _ _ => 0%Q) provider
                     (3 # 65536, 0)%Q happy 2500 fresh_world in
      let second := fetch_overpass (fun _ _ => 0%Q) provider
                      (4 # 65536, 0)%Q happy 2500 (snd first) in
      requests_made (snd first) = 1%nat
      /\ requests_made (snd second) = 2%nat).
Proof.
  split; [|split; [|split]].
  - split; apply Qabs_Qle_condition; split; unfold Qle; simpl; lia.
  - unfold Qlt. simpl. lia.
  - intros H. inversion H.
  - vm_compute. split; reflexivity.
Qed.

(** ** Loading the cache *)

Lemma eval_items_ok (py_eval : string -> option cache_key) items : forall acc,
  (exists c, eval_items py_eval items acc = Ok c)
  <-> Forall (fun kv => is_Some (py_eval (fst kv))) items.
Proof.
  induction items as [|[k v] r IH]; intros acc; simpl.
  - split; [constructor|now eexists].
  - destruct (py_eval k) as [key|] eqn:E.
    + rewrite IH. split.
      * intros Hr. constructor; [simpl; rewrite E; now eexists|exact Hr].
      * intros Hall. now apply Forall_cons in Hall as [_ Hr].
    + split.
      * intros [c Hc]. discriminate.
      * intros Hall. apply Forall_cons in Hall as [[key Hk] _].
        simpl in Hk. congruence.
Qed.

(** C3. [load_cache] starts from the empty table when the file is missing
    or is not JSON, but a file that holds a JSON document other than an
    object (for instance [[]]) makes it raise [AttributeError], and an
    object with a key that [eval] rejects makes it raise too: those
    exceptions are not among the two it handles, and they reach the caller.
    The load succeeds exactly for a missing file, an undecodable file, and
    an object all of whose keys evaluate; a file that cannot be opened or
    is not text raises as well. *)
Theorem load_cache_non_object_raises (py_eval : string -> option cache_key) :
  load_cache py_eval FileMissing = Ok ∅
  /\ load_cache py_eval FileNotJson = Ok ∅
  /\ load_cache py_eval FileJsonOther = Raise AttributeError
  /\ (forall k v rest,
        py_eval k = None ->
        load_cache py_eval (FileJsonObject ((k, v) :: rest)) = Raise EvalError)
  /\ (forall f,
        (exists c, load_cache py_eval f = Ok c)
        <-> (f = FileMissing \/ f = FileNotJson
             \/ exists items,
                 f = FileJsonObject items
                 /\ Forall (fun kv => is_Some (py_eval (fst kv))) items))
  /\ load_cache py_eval FileUnreadable = Raise OSError
  /\ load_cache py_eval FileNotText = Raise UnicodeDecodeError.
Proof.
  split; [reflexivity|]. split; [reflexivity|]. split; [reflexivity|].
  split; [|split; [|split; reflexivity]].
  - intros k v rest Hk. simpl. now rewrite Hk.
  - intros [| |items| | |]; simpl.
    + split; [now left|now eexists].
    + split; [right; now left|now eexists].
    + rewrite eval_items_ok. split.
      * intros Hall. right. right. now exists items.
      * intros [H|[H|(items' & [= <-] & Hall)]]; [discriminate..|exact Hall].
    + split; [intros [c Hc]; discriminate|].
      intros [H|[H|(items' & H & _)]]; discriminate.
    + split; [intros [c Hc]; discriminate|].
      intros [H|[H|(items' & H & _)]]; discriminate.
    + split; [intros [c Hc]; discriminate|].
      intros [H|[H|(items' & H & _)]]; discriminate.
Qed.

(** ** The bounded history *)

Lemma capped_app_capped l e : capped (capped l ++ [e]) = capped (l ++ [e]).
Proof.
  unfold capped, last_n, MAX_HISTORY_SIZE.
  destruct (50 <? length l)%nat eqn:E.
  - apply Nat.ltb_lt in E.
    assert (Hl : length (drop (length l - 50) l ++ [e]) = 51%nat).
    { rewrite length_app, length_drop. simpl. lia. }
    rewrite Hl. simpl Nat.ltb.
    replace (51 - 50)%nat with 1%nat by lia.
    rewrite length_app. simpl length.
    replace (50 <? length l + 1)%nat with true
      by (symmetry; apply Nat.ltb_lt; lia).
    rewrite !drop_app_le by (rewrite ?length_drop; lia).
    rewrite drop_drop. f_equal. f_equal. lia.
  - reflexivity.
Qed.

Lemma save_history_step p h e :
  history p = Some h ->
  save_history p e = Ok (set_history p (capped (h ++ [e]))).
Proof. intros Hh. unfold save_history. now rewrite Hh. Qed.

Lemma save_history_all_capped r : forall p l,
  history p = Some (capped l) ->
  save_history_all p r = Ok (set_history p (capped (l ++ r))).
Proof.
  induction r as [|e r IH]; intros p l Hh.
  - simpl. rewrite app_nil_r. destruct p; simpl in *. now rewrite Hh.
  - simpl. rewrite (save_history_step p _ e Hh). simpl.
    rewrite capped_app_capped.
    rewrite (IH _ (l ++ [e])) by reflexivity.
    now rewrite <- app_assoc.
Qed.

Lemma save_history_all_nonempty p h e r :
  history p = Some h ->
  save_history_all p (e :: r) = Ok (set_history p (capped (h ++ e :: r))).
Proof.
  intros Hh. simpl. rewrite (save_history_step p h e Hh). simpl.
  rewrite (save_history_all_capped r _ (h ++ [e])) by reflexivity.
  now rewrite <- app_assoc.
Qed.

(** C4. On a profile that has a history (every profile of the data model
    has one; without the key [save_history] raises [KeyError]), any number
    of [save_history] calls succeeds and changes the history only. After
    more than 50 calls the history of the resulting profile is exactly the
    last 50 entries appended, in the order of the appends; after at most 50
    calls every appended entry is there, in order, at the end of the
    history, behind what is left of the old entries (none when the history
    started empty). *)
Theorem save_history_keeps_most_recent p h entries :
  history p = Some h ->
  exists p' h',
    save_history_all p entries = Ok p'
    /\ history p' = Some h'
    /\ favorites p' = favorites p
    /\ mood_usage p' = mood_usage p
    /\ place_usage p' = place_usage p
    /\ ((50 < length entries)%nat ->
        length h' = 50%nat /\ h' = last_n 50 entries)
    /\ ((length entries <= 50)%nat ->
        exists older, h' = older ++ entries /\ older `suffix_of` h)
    /\ ((length entries <= 50)%nat -> h = [] -> h' = entries).
Proof.
  intros Hh. destruct entries as [|e r].
  - exists p, h. split; [reflexivity|]. split; [exact Hh|].
    split; [reflexivity|]. split; [reflexivity|]. split; [reflexivity|].
    split; [|split].
    + simpl. lia.
    + intros _. exists h. rewrite app_nil_r. split; [reflexivity|].
      exists []; reflexivity.
    + intros _ ->. reflexivity.
  - exists (set_history p (capped (h ++ e :: r))), (capped (h ++ e :: r)).
    split; [now apply save_history_all_nonempty|].
    split; [reflexivity|].
    split; [reflexivity|]. split; [reflexivity|]. split; [reflexivity|].
    unfold capped, last_n, MAX_HISTORY_SIZE. rewrite length_app.
    split; [|split].
    + intros Hlen.
      replace (50 <? length h + length (e :: r))%nat with true
        by (symmetry; apply Nat.ltb_lt; lia).
      rewrite drop_app_ge by lia.
      replace (length h + length (e :: r) - 50 - length h)%nat
        with (length (e :: r) - 50)%nat by lia.
      split; [|reflexivity].
      rewrite length_drop. lia.
    + intros Hlen.
      destruct (50 <? length h + length (e :: r))%nat eqn:E.
      * rewrite drop_app_le by lia.
        eexists. split; [reflexivity|]. apply suffix_drop.
      * exists h. split; [reflexivity|]. exists []; reflexivity.
    + intros Hlen ->. simpl length at 1.
      replace (50 <? 0 + length (e :: r))%nat with false
        by (symmetry; apply Nat.ltb_ge; simpl in *; lia).
      reflexivity.
Qed.

(** ** Sorting by distance *)

Lemma Qlt_bool_true a b : Qlt_bool a b = true <-> (a < b)%Q.
Proof.
  unfold Qlt_bool. rewrite Qlt_alt.
  destruct (a ?= b)%Q; split; intros H; congruence.
Qed.

Lemma Qlt_bool_false a b : Qlt_bool a b = false <-> (b <= a)%Q.
Proof.
  rewrite <- not_true_iff_false, Qlt_bool_true. split.
  - apply Qnot_lt_le.
  - apply Qle_not_lt.
Qed.

Lemma insert_by_distance_perm p l : insert_by_distance p l ≡ₚ p :: l.
Proof.
  induction l as [|q r IH]; simpl; [reflexivity|].
  destruct (Qle_bool (distance p) (distance q)); [reflexivity|].
  rewrite IH. apply Permutation_swap.
Qed.

Lemma sort_by_distance_perm l : sort_by_distance l ≡ₚ l.
Proof.
  induction l as [|p r IH]; simpl; [reflexivity|].
  rewrite insert_by_distance_perm. now rewrite IH.
Qed.

Lemma insert_by_distance_sorted p l :
  StronglySorted by_distance l ->
  StronglySorted by_distance (insert_by_distance p l).
Proof.
  induction l as [|q r IH]; intros Hs; simpl.
  - constructor; [constructor|constructor].
  - inversion Hs as [|? ? Hr Hall]; subst.
    destruct (Qle_bool (distance p) (distance q)) eqn:E.
    + apply Qle_bool_iff in E. constructor; [exact Hs|].
      constructor; [exact E|].
      eapply Forall_impl; [exact Hall|].
      intros x Hx. unfold by_distance in *. now apply Qle_trans with (distance q).
    + constructor; [now apply IH|].
      rewrite insert_by_distance_perm. constructor; [|exact Hall].
      unfold by_distance.
      destruct (Qlt_le_dec (distance q) (distance p)) as [Hlt|Hle].
      * now apply Qlt_le_weak.
      * apply Qle_bool_iff in Hle. congruence.
Qed.

Lemma sort_by_distance_sorted l : StronglySorted by_distance (sort_by_distance l).
Proof.
  induction l as [|p r IH]; simpl; [constructor|].
  now apply insert_by_distance_sorted.
Qed.

(** ** The dict of unique places *)

Lemma dict_get_None k d : dict_get k d = None <-> ~ In k (map fst d).
Proof.
  induction d as [|[k' v'] r IH]; simpl; [tauto|].
  destruct (String.eqb_spec k k') as [->|Hne].
  - split; [discriminate|]. intros H. exfalso. apply H. now left.
  - rewrite IH. split; [|tauto].
    intros H [Heq|Hin]; [congruence|tauto].
Qed.

Lemma dict_get_Some_In k v d : dict_get k d = Some v -> In (k, v) d.
Proof.
  induction d as [|[k' v'] r IH]; simpl; [discriminate|].
  destruct (String.eqb_spec k k') as [->|Hne].
  - intros [= ->]. now left.
  - intros H. right. now apply IH.
Qed.

Lemma dict_set_keys k v d :
  map fst (dict_set k v d)
  = match dict_get k d with
    | Some _ => map fst d
    | None => map fst d ++ [k]
    end.
Proof.
  induction d as [|[k' v'] r IH]; simpl; [reflexivity|].
  destruct (String.eqb_spec k k') as [->|Hne]; simpl; [reflexivity|].
  rewrite IH. now destruct (dict_get k r).
Qed.

Lemma dict_set_In k v d k' v' :
  NoDup (map fst d) ->
  In (k', v') (dict_set k v d) ->
  (k' = k /\ v' = v) \/ (k' <> k /\ In (k', v') d).
Proof.
  induction d as [|[k0 v0] r IH]; simpl; intros Hnd Hin.
  - destruct Hin as [[= <- <-]|[]]. now left.
  - apply NoDup_cons in Hnd as [Hk0 Hnd].
    destruct (String.eqb_spec k k0) as [->|Hne]; simpl in Hin.
    + destruct Hin as [[= <- <-]|Hin]; [now left|].
      right. split; [|now right].
      intros ->. apply Hk0. apply list_elem_of_In.
      change k0 with (fst (k0, v')). now apply in_map.
    + destruct Hin as [[= <- <-]|Hin].
      * right. split; [congruence|now left].
      * destruct (IH Hnd Hin) as [?|[? ?]]; [now left|].
        right. split; [assumption|now right].
Qed.

Lemma dict_set_In_new k v d : In (k, v) (dict_set k v d).
Proof.
  induction d as [|[k0 v0] r IH]; simpl; [now left|].
  destruct (String.eqb_spec k k0); simpl; [now left|now right].
Qed.

Lemma dict_In_get k v d :
  NoDup (map fst d) -> In (k, v) d -> dict_get k d = Some v.
Proof.
  induction d as [|[k0 v0] r IH]; simpl; intros Hnd Hin; [contradiction|].
  apply NoDup_cons in Hnd as [Hk0 Hnd].
  destruct (String.eqb_spec k k0) as [->|Hne].
  - destruct Hin as [[= ->]|Hin]; [reflexivity|].
    exfalso. apply Hk0. apply list_elem_of_In.
    change k0 with (fst (k0, v)). now apply in_map.
  - destruct Hin as [[= -> ->]|Hin]; [congruence|]. now apply IH.
Qed.

Lemma unique_step_inv seen d p :
  unique_inv seen d -> unique_inv (seen ++ [p]) (unique_step d p).
Proof.
  intros (Hnd & Hmin & Hcov). unfold unique_step.
  destruct (dict_get (name p) d) as [q0|] eqn:Eget.
  - pose proof (Hmin _ _ (dict_get_Some_In _ _ _ Eget)) as (Hn0 & Hin0 & Hmin0).
    destruct (Qlt_bool (distance p) (distance q0)) eqn:Elt.
    + apply Qlt_bool_true in Elt. split; [|split].
      * rewrite dict_set_keys, Eget. exact Hnd.
      * intros k v Hin.
        destruct (dict_set_In _ _ _ _ _ Hnd Hin) as [[-> ->]|[Hne Hold]].
        -- split; [reflexivity|]. split; [apply in_or_app; right; now left|].
           intros q Hq Hname. apply in_app_or in Hq as [Hq|[<-|[]]].
           ++ unfold by_distance. apply Qle_trans with (distance q0).
              ** now apply Qlt_le_weak.
              ** now apply Hmin0.
           ++ apply Qle_refl.
        -- destruct (Hmin _ _ Hold) as (Hn & Hi & Hm).
           split; [exact Hn|]. split; [apply in_or_app; now left|].
           intros q Hq Hname. apply in_app_or in Hq as [Hq|[<-|[]]].
           ++ now apply Hm.
           ++ congruence.
      * intros q Hq. rewrite dict_set_keys, Eget.
        apply in_app_or in Hq as [Hq|[<-|[]]].
        -- now apply Hcov.
        -- change (name p) with (fst (name p, q0)). apply in_map.
           now apply dict_get_Some_In.
    + apply Qlt_bool_false in Elt. split; [exact Hnd|split].
      * intros k v Hin. destruct (Hmin _ _ Hin) as (Hn & Hi & Hm).
        split; [exact Hn|]. split; [apply in_or_app; now left|].
        intros q Hq Hname. apply in_app_or in Hq as [Hq|[<-|[]]].
        -- now apply Hm.
        -- subst k. pose proof (dict_In_get _ _ _ Hnd Hin) as Hget.
           assert (Hv : Some q0 = Some v)
             by (rewrite <- Eget, Hname; exact Hget).
           injection Hv as <-. exact Elt.
      * intros q Hq. apply in_app_or in Hq as [Hq|[<-|[]]].
        -- now apply Hcov.
        -- change (name p) with (fst (name p, q0)). apply in_map.
           now apply dict_get_Some_In.
  - pose proof (proj1 (dict_get_None _ _) Eget) as Hfresh.
    split; [|split].
    + rewrite dict_set_keys, Eget. apply NoDup_app. split; [exact Hnd|].
      split; [|apply NoDup_singleton].
      intros x Hx Hx'. apply list_elem_of_In in Hx.
      apply list_elem_of_In in Hx'. destruct Hx' as [<-|[]]. tauto.
    + intros k v Hin.
      destruct (dict_set_In _ _ _ _ _ Hnd Hin) as [[-> ->]|[Hne Hold]].
      * split; [reflexivity|]. split; [apply in_or_app; right; now left|].
        intros q Hq Hname. apply in_app_or in Hq as [Hq|[<-|[]]].
        -- exfalso. apply Hfresh. rewrite <- Hname. now apply Hcov.
        -- apply Qle_refl.
      * destruct (Hmin _ _ Hold) as (Hn & Hi & Hm).
        split; [exact Hn|]. split; [apply in_or_app; now left|].
        intros q Hq Hname. apply in_app_or in Hq as [Hq|[<-|[]]].
        -- now apply Hm.
        -- congruence.
    + intros q Hq. rewrite dict_set_keys, Eget. apply in_or_app.
      apply in_app_or in Hq as [Hq|[<-|[]]].
      * left. now apply Hcov.
      * right. now left.
Qed.

Lemma unique_fold_inv all : forall seen d,
  unique_inv seen d -> unique_inv (seen ++ all) (fold_left unique_step all d).
Proof.
  induction all as [|p r IH]; intros seen d Hinv; simpl.
  - now rewrite app_nil_r.
  - replace (seen ++ p :: r) with ((seen ++ [p]) ++ r)
      by now rewrite <- app_assoc.
    apply IH. now apply unique_step_inv.
Qed.

Lemma unique_places_of_inv all : unique_inv all (unique_places_of all).
Proof.
  apply (unique_fold_inv all [] []).
  split; [constructor|]. split; intros; contradiction.
Qed.

Lemma unique_values_names seen d :
  unique_inv seen d -> map name (dict_values d) = map fst d.
Proof.
  intros (_ & Hmin & _). unfold dict_values.
  induction d as [|[k v] r IH]; simpl; [reflexivity|].
  f_equal.
  - now destruct (Hmin k v (or_introl eq_refl)).
  - apply IH. intros k' v' Hin. apply Hmin. now right.
Qed.

(** ** Aggregation *)

(** C5. The combined list has each name once; every entry of it is an
    input place whose distance is the least among the input places of its
    name; every input name is represented; the list is in ascending order
    of distance; and two moods returning a "Central Perk" at 1.0 and at 0.4
    combine to the single entry at 0.4. *)
Theorem combine_dedup_min_sorted (per_mood_lists : list (list Place)) :
  NoDup (map name (combine per_mood_lists))
  /\ (forall p, In p (combine per_mood_lists) ->
        In p (concat per_mood_lists)
        /\ forall q, In q (concat per_mood_lists) -> name q = name p ->
                     (distance p <= distance q)%Q)
  /\ (forall q, In q (concat per_mood_lists) ->
        exists p, In p (combine per_mood_lists) /\ name p = name q)
  /\ StronglySorted by_distance (combine per_mood_lists)
  /\ combine [[place_named "Central Perk" (10 # 10)];
              [place_named "Central Perk" (4 # 10)]]
     = [place_named "Central Perk" (4 # 10)].
Proof.
  unfold combine, combined_places_of.
  set (all := concat per_mood_lists).
  pose proof (unique_places_of_inv all) as Hinv.
  pose proof (unique_values_names _ _ Hinv) as Hnames.
  destruct Hinv as (Hnd & Hmin & Hcov).
  set (d := unique_places_of all) in *.
  pose proof (sort_by_distance_perm (dict_values d)) as Hperm.
  assert (Hval : forall p, In p (dict_values d) -> In (name p, p) d).
  { intros p Hp. unfold dict_values in Hp. apply in_map_iff in Hp.
    destruct Hp as ([k v] & <- & Hin). simpl.
    now destruct (Hmin k v Hin) as (-> & _). }
  split; [|split; [|split; [|split]]].
  - rewrite Hperm, Hnames. exact Hnd.
  - intros p Hp. apply list_elem_of_In in Hp. rewrite Hperm in Hp.
    apply list_elem_of_In in Hp.
    destruct (Hmin _ _ (Hval p Hp)) as (_ & Hin & Hle).
    split; [exact Hin|]. intros q Hq Hname. now apply Hle.
  - intros q Hq. specialize (Hcov q Hq). rewrite <- Hnames in Hcov.
    apply in_map_iff in Hcov. destruct Hcov as (p & Hname & Hp).
    exists p. split; [|exact Hname].
    apply list_elem_of_In. rewrite Hperm. now apply list_elem_of_In.
  - apply sort_by_distance_sorted.
  - reflexivity.
Qed.

(** ** Mood detection *)

Lemma prefix_spec s t :
  String.prefix s t = true <-> exists b, t = (s ++ b)%string.
Proof.
  revert t. induction s as [|c s IH]; intros t.
  - split; [intros _; now exists t|intros _; now destruct t].
  - destruct t as [|c' t]; simpl; [split; [discriminate|intros [b [=]]]|].
    destruct (ascii_dec c c') as [->|Hne].
    + rewrite IH. split; intros [b Hb]; exists b.
      * rewrite Hb. reflexivity.
      * change (String c' t = String c' (s ++ b)) in Hb. congruence.
    + split; [discriminate|]. intros [b Hb].
      change (String c' t = String c (s ++ b)) in Hb. congruence.
Qed.

Lemma contains_spec s t :
  contains s t = true <-> exists a b, t = (a ++ s ++ b)%string.
Proof.
  induction t as [|c t IH].
  - split.
    + intros H. destruct s; [|discriminate]. now exists EmptyString, EmptyString.
    + intros (a & b & Hab). destruct a; destruct s; try discriminate.
      reflexivity.
  - change (contains s (String c t))
      with (String.prefix s (String c t) || contains s t).
    rewrite orb_true_iff, IH, prefix_spec. split.
    + intros [[b Hb]|(a & b & Hab)].
      * now exists EmptyString, b.
      * exists (String c a), b. rewrite Hab. reflexivity.
    + intros (a & b & Hab). destruct a as [|c' a].
      * left. now exists b.
      * right. change (String c t = String c' (a ++ s ++ b)) in Hab.
        injection Hab as _ ->. now exists a, b.
Qed.

Lemma lower_app a b : lower (a ++ b) = (lower a ++ lower b)%string.
Proof. induction a as [|c a IH]; simpl; [reflexivity|now rewrite IH]. Qed.

Lemma lower_app_inv a' : forall t b',
  lower t = (a' ++ b')%string ->
  exists a b, t = (a ++ b)%string /\ lower a = a' /\ lower b = b'.
Proof.
  induction a' as [|c a' IH]; intros t b' H; simpl in H.
  - now exists EmptyString, t.
  - destruct t as [|c0 t]; [discriminate|]. simpl in H.
    injection H as Hc Ht. destruct (IH _ _ Ht) as (a & b & -> & Ha & Hb).
    exists (String c0 a), b. simpl. now rewrite Hc, Ha.
Qed.

Lemma contains_lower_spec n text :
  contains n (lower text) = true <-> occurs_ignoring_case n text.
Proof.
  rewrite contains_spec. unfold occurs_ignoring_case. split.
  - intros (a' & b' & H).
    destruct (lower_app_inv _ _ _ H) as (a & r & -> & Ha & Hr).
    destruct (lower_app_inv _ _ _ Hr) as (w & b & -> & Hw & Hb).
    now exists a, w, b.
  - intros (a & w & b & -> & Hw).
    exists (lower a), (lower b). now rewrite !lower_app, Hw.
Qed.

Lemma literal_moods_spec text m :
  In m (literal_moods text) <-> occurs_ignoring_case (mood_name m) text.
Proof.
  unfold literal_moods. rewrite filter_In, contains_lower_spec.
  split; [tauto|]. intros H. split; [|exact H].
  destruct m; simpl; tauto.
Qed.

Lemma NoDup_only_singleton (l : list mood) m :
  NoDup l -> (forall x, In x l <-> In x [m]) -> l = [m].
Proof.
  intros Hnd Hin. destruct l as [|x r].
  - exfalso. apply (Hin m). now left.
  - assert (x = m) as -> by (destruct (proj1 (Hin x) (or_introl eq_refl)) as [?|[]]; congruence).
    f_equal. destruct r as [|y r]; [reflexivity|].
    exfalso. apply NoDup_cons in Hnd as [Hm _]. apply Hm.
    assert (y = m) as -> .
    { destruct (proj1 (Hin y) (or_intror (or_introl eq_refl))) as [?|[]].
      congruence. }
    now left.
Qed.

Section MoodDetectionFacts.

Variable polarity : string -> Q.
Variable list_of_set : list mood -> list mood.
Hypothesis list_of_set_spec :
  forall l, NoDup (list_of_set l) /\ forall m, In m (list_of_set l) <-> In m l.

(** C6. [detect_moods_from_text] never returns the empty list, and lists
    each mood once. If some mood name occurs in the text, whatever the
    case of its letters, the result holds exactly the moods whose names
    occur. If none does, the result is the single mood given by the
    polarity: happy above 0.4, else sad below -0.2, else adventurous. *)
Theorem detect_moods_from_text_spec (text : string) :
  let result := detect_moods_from_text polarity list_of_set text in
  result <> []
  /\ NoDup result
  /\ ((exists m, occurs_ignoring_case (mood_name m) text) ->
      forall m, In m result <-> occurs_ignoring_case (mood_name m) text)
  /\ ((forall m, ~ occurs_ignoring_case (mood_name m) text) ->
      ((double_0_4 < polarity text)%Q -> result = [happy])
      /\ (~ (double_0_4 < polarity text)%Q ->
          (polarity text < double_neg_0_2)%Q -> result = [sad])
      /\ (~ (double_0_4 < polarity text)%Q ->
          ~ (polarity text < double_neg_0_2)%Q -> result = [adventurous])).
Proof.
  intros result. subst result. unfold detect_moods_from_text.
  pose proof (literal_moods_spec text) as Hlit.
  destruct (literal_moods text) as [|m0 r] eqn:E.
  - assert (Hone : forall m, list_of_set [m] = [m]).
    { intros m. apply NoDup_only_singleton; apply list_of_set_spec. }
    destruct (Qlt_bool double_0_4 (polarity text)) eqn:E1;
      [|destruct (Qlt_bool (polarity text) double_neg_0_2) eqn:E2];
      rewrite Hone; (split; [discriminate|]);
      (split; [apply NoDup_singleton|]);
      (split; [intros [m Hm]; apply Hlit in Hm; contradiction|]);
      intros _; rewrite ?Qlt_bool_true in *;
      rewrite <- ?not_true_iff_false, ?Qlt_bool_true in *;
      repeat split; intros; solve [reflexivity | contradiction].
  - destruct (list_of_set_spec (m0 :: r)) as [Hnd Hin].
    split; [|split; [exact Hnd|split]].
    + intros Hnil. pose proof (proj2 (Hin m0) (or_introl eq_refl)) as H0.
      rewrite Hnil in H0. contradiction.
    + intros _ m. now rewrite Hin, Hlit.
    + intros Hnone. exfalso. apply (Hnone m0). apply Hlit. now left.
Qed.

End MoodDetectionFacts.

(** ** Geocoding with retry *)

Section GeocodeFacts.

Variable geocoder : nat -> geocode_outcome.

Lemma geocode_loop_spec attempts : forall delay w,
  let r := geocode_loop geocoder attempts delay w in
  CACHE (snd r) = CACHE w
  /\ requests_made (snd r) = requests_made w
  /\ exists k,
      (k <= length attempts)%nat
      /\ (forall i, (i < k)%nat ->
                    geocode_failed (geocoder (geocodes_made w + i)))
      /\ slept (snd r) = slept w ++ backoff delay k
      /\ ((k = length attempts /\ fst r = None
           /\ geocodes_made (snd r) = (geocodes_made w + k)%nat)
          \/ ((k < length attempts)%nat
              /\ exists la lo,
                  geocoder (geocodes_made w + k) = Located la lo
                  /\ fst r = Some (la, lo)
                  /\ geocodes_made (snd r) = (geocodes_made w + k + 1)%nat)).
Proof.
  induction attempts as [|a rest IH]; intros delay w; simpl.
  - split; [reflexivity|]. split; [reflexivity|].
    exists 0%nat. split; [lia|]. split; [intros; lia|].
    split; [now rewrite app_nil_r|]. left. repeat split. lia.
  - assert (Hfail : geocode_failed (geocoder (geocodes_made w)) ->
      let r := geocode_loop geocoder rest (delay * 2)%Q
                 (sleep delay (count_geocode w)) in
      CACHE (snd r) = CACHE w
      /\ requests_made (snd r) = requests_made w
      /\ exists k,
          (k <= S (length rest))%nat
          /\ (forall i, (i < k)%nat ->
                        geocode_failed (geocoder (geocodes_made w + i)))
          /\ slept (snd r) = slept w ++ backoff delay k
          /\ ((k = S (length rest) /\ fst r = None
               /\ geocodes_made (snd r) = (geocodes_made w + k)%nat)
              \/ ((k < S (length rest))%nat
                  /\ exists la lo,
                      geocoder (geocodes_made w + k) = Located la lo
                      /\ fst r = Some (la, lo)
                      /\ geocodes_made (snd r)
                         = (geocodes_made w + k + 1)%nat))).
    { intros Hf0 r. subst r.
      destruct (IH (delay * 2)%Q (sleep delay (count_geocode w)))
        as (Hc & Hr & k & Hk & Hfs & Hs & Hend).
      simpl in *. split; [exact Hc|]. split; [exact Hr|].
      exists (S k). split; [lia|]. split; [|split].
      - intros i Hi. destruct i as [|i].
        + now rewrite Nat.add_0_r.
        + replace (geocodes_made w + S i)%nat
            with (S (geocodes_made w + i)) by lia.
          apply Hfs. lia.
      - rewrite Hs, <- app_assoc. reflexivity.
      - destruct Hend as [(-> & Hn & Hg)|(Hlt & la & lo & Hl & Hsome & Hg)].
        + left. repeat split; [exact Hn|lia].
        + right. split; [lia|]. exists la, lo.
          replace (geocodes_made w + S k)%nat
            with (S (geocodes_made w + k)) by lia.
          repeat split; [exact Hl|exact Hsome|lia]. }
    destruct (geocoder (geocodes_made w)) as [la lo| |] eqn:E.
    + simpl. split; [reflexivity|]. split; [reflexivity|].
      exists 0%nat. split; [lia|]. split; [intros; lia|].
      split; [now rewrite app_nil_r|]. right. split; [lia|].
      exists la, lo. rewrite Nat.add_0_r. repeat split; [exact E|lia].
    + apply Hfail. now left.
    + apply Hfail. now right.
Qed.


End GeocodeFacts.

(** ** Elements without a usable coordinate *)

(** C8. An element that carries its own coordinates, with a latitude of
    exactly 0.0, is left out of the result: [0.0] is falsy, so both the
    [or] and the [if lat_p and lon_p] test take it for a missing value.
    A response holding only such an element yields no place. An element
    with its own coordinates both different from zero is included, under
    the name "Unnamed" when it has no tags. *)
Theorem element_on_equator_skipped (geodesic_km : coords -> coords -> Q)
    (origin : coords) (el_tags0 : option (gmap string string)) (lo : Q) :
  place_of_element geodesic_km origin
    (mkElement el_tags0 (Some 0%Q) (Some lo) None) = None
  /\ fst (fetch_overpass geodesic_km
            (fun _ => Json (mkData
                              (Some [mkElement el_tags0 (Some 0%Q) (Some lo)
                                               None])))
            origin happy 2500 fresh_world) = []
  /\ (forall la ctr,
        ~ (la == 0)%Q -> ~ (lo == 0)%Q ->
        place_of_element geodesic_km origin
          (mkElement None (Some la) (Some lo) ctr)
        = Some (mkPlace "Unnamed" la lo (geodesic_km origin (la, lo)) ∅)).
Proof.
  assert (H : place_of_element geodesic_km origin
                (mkElement el_tags0 (Some 0%Q) (Some lo) None) = None)
    by reflexivity.
  split; [exact H|]. split.
  - unfold fetch_overpass. simpl CACHE. rewrite lookup_empty.
    change (range 1 (Z.to_nat fetch_retries)) with [1; 2; 3].
    simpl request_loop. cbv iota beta. unfold places_of_data. simpl elements.
    simpl default. reflexivity.
  - intros la ctr Hla Hlo.
    assert (Ela : Qeq_bool la 0 = false).
    { apply not_true_iff_false. now rewrite Qeq_bool_iff. }
    assert (Elo : Qeq_bool lo 0 = false).
    { apply not_true_iff_false. now rewrite Qeq_bool_iff. }
    unfold place_of_element, py_or, truthy. simpl.
    rewrite Ela, Elo. simpl. rewrite Ela, Elo. reflexivity.
Qed.

(** ** Favorites and usage counters *)

Lemma fav_list_of_set_fav_list p m l m' :
  fav_list_of (set_fav_list p m l) m'
  = if decide (m' = m) then l else fav_list_of p m'.
Proof.
  unfold fav_list_of, set_fav_list. simpl.
  destruct (decide (m' = m)) as [->|Hne].
  - now rewrite lookup_insert_eq.
  - now rewrite lookup_insert_ne by congruence.
Qed.

Lemma fav_list_of_setdefault p m m' :
  fav_list_of (setdefault_fav_list p m) m' = fav_list_of p m'.
Proof.
  unfold setdefault_fav_list. rewrite fav_list_of_set_fav_list.
  now destruct (decide (m' = m)) as [->|].
Qed.

Lemma any_named_spec n l : any_named n l = true <-> n ∈ fav_names l.
Proof.
  unfold any_named, fav_names. rewrite existsb_exists, list_elem_of_omap.
  split.
  - intros ([n' t|] & Hin & Heq); [|discriminate].
    apply String.eqb_eq in Heq as ->.
    exists (FavDict n t). split; [now apply list_elem_of_In|reflexivity].
  - intros ([n' t|] & Hin & Heq); [|discriminate].
    injection Heq as ->. exists (FavDict n t).
    split; [now apply list_elem_of_In|apply String.eqb_refl].
Qed.

Lemma favorites_loop_spec m places : forall p,
  favorites_loop m places p
  = match first_new_place m places (fav_list_of p m) with
    | Some place =>
        update_usage_counters
          (set_fav_list p m
             (fav_list_of p m ++ [FavDict (name place) (tags place)]))
          m (name place)
    | None => p
    end.
Proof.
  unfold first_new_place.
  induction places as [|place rest IH]; intros p; simpl; [reflexivity|].
  destruct (MoodInPlace (tags place) m); simpl; [|apply IH].
  destruct (any_named (name place) (fav_list_of p m)); simpl; [apply IH|].
  reflexivity.
Qed.

Lemma first_new_place_spec m places favs place :
  first_new_place m places favs = Some place ->
  MoodInPlace (tags place) m = true
  /\ any_named (name place) favs = false
  /\ exists before after,
      places = before ++ place :: after
      /\ forall x, In x before ->
           MoodInPlace (tags x) m = false \/ any_named (name x) favs = true.
Proof.
  unfold first_new_place.
  induction places as [|x rest IH]; simpl; [discriminate|].
  destruct (MoodInPlace (tags x) m && negb (any_named (name x) favs)) eqn:E.
  - intros [= ->]. apply andb_true_iff in E as [Hm Hn].
    apply negb_true_iff in Hn. split; [exact Hm|]. split; [exact Hn|].
    exists [], rest. split; [reflexivity|]. intros ? [].
  - intros Hfind. destruct (IH Hfind) as (Hm & Hn & before & after & -> & Hb).
    split; [exact Hm|]. split; [exact Hn|].
    exists (x :: before), after. split; [reflexivity|].
    intros y [<-|Hy]; [|now apply Hb].
    apply andb_false_iff in E as [E|E]; [now left|].
    right. now apply negb_false_iff in E.
Qed.

Lemma first_new_place_none m places favs :
  first_new_place m places favs = None ->
  forall x, In x places ->
    MoodInPlace (tags x) m = false \/ any_named (name x) favs = true.
Proof.
  unfold first_new_place. intros Hnone x Hx.
  pose proof (find_none _ _ Hnone x Hx) as E. simpl in E.
  apply andb_false_iff in E as [E|E]; [now left|].
  right. now apply negb_false_iff in E.
Qed.

(** What one iteration of the loop over the moods does to every
    observable part of the profile. *)
Lemma favorites_for_mood_spec places p m :
  let p1 := favorites_for_mood places p m in
  history p1 = history p
  /\ (forall m', fav_list_of p1 m'
                 = if decide (m' = m)
                   then fav_list_of p m ++ new_favorite m places p
                   else fav_list_of p m')
  /\ (forall m', mood_count p1 m'
                 = if decide (m' = m)
                   then mood_count p m
                        + Z.of_nat (length (new_favorite m places p))
                   else mood_count p m')
  /\ (forall n, place_count p1 n
                = if bool_decide (n ∈ fav_names (new_favorite m places p))
                  then place_count p n + 1
                  else place_count p n).
Proof.
  unfold favorites_for_mood, new_favorite. rewrite favorites_loop_spec.
  rewrite fav_list_of_setdefault.
  destruct (first_new_place m places (fav_list_of p m)) as [place|] eqn:E;
    simpl.
  - split; [reflexivity|]. split; [|split].
    + intros m'. unfold update_usage_counters.
      change (fav_list_of (mkProfile ?h ?f ?mu ?pu) m')
        with (default [] (default ∅ f !! m')).
      change (favorites (set_fav_list ?q ?a ?l))
        with (Some (<[a := l]> (default ∅ (favorites q)))).
      simpl. destruct (decide (m' = m)) as [->|Hne].
      * now rewrite lookup_insert_eq.
      * rewrite lookup_insert_ne by congruence.
        unfold setdefault_fav_list. simpl.
        rewrite lookup_insert_ne by congruence. reflexivity.
    + intros m'. unfold mood_count, update_usage_counters. simpl.
      destruct (decide (m' = m)) as [->|Hne].
      * rewrite lookup_insert_eq. simpl. lia.
      * now rewrite lookup_insert_ne by congruence.
    + intros n. unfold place_count, update_usage_counters. simpl.
      destruct (decide (n = name place)) as [->|Hne].
      * case_bool_decide as Hd.
        -- rewrite lookup_insert_eq. reflexivity.
        -- exfalso. apply Hd. now apply list_elem_of_singleton.
      * case_bool_decide as Hd.
        -- apply list_elem_of_singleton in Hd. congruence.
        -- now rewrite lookup_insert_ne by congruence.
  - split; [reflexivity|]. split; [|split].
    + intros m'. rewrite fav_list_of_setdefault, app_nil_r.
      now destruct (decide (m' = m)) as [->|].
    + intros m'. unfold mood_count. simpl.
      destruct (decide (m' = m)) as [->|]; [lia|reflexivity].
    + intros n. unfold place_count. simpl.
      reflexivity.
Qed.

Lemma new_favorite_length m places p :
  (length (new_favorite m places p) <= 1)%nat.
Proof.
  unfold new_favorite.
  destruct (first_new_place m places (fav_list_of p m)); simpl; lia.
Qed.

Lemma new_favorite_fresh m places p n :
  n ∈ fav_names (new_favorite m places p) -> n ∉ fav_names (fav_list_of p m).
Proof.
  unfold new_favorite.
  destruct (first_new_place m places (fav_list_of p m)) as [place|] eqn:E.
  - destruct (first_new_place_spec _ _ _ _ E) as (_ & Hn & _).
    intros Hin. apply list_elem_of_singleton in Hin as ->.
    rewrite <- any_named_spec. congruence.
  - intros Hin. now apply not_elem_of_nil in Hin.
Qed.

Lemma fav_names_app l1 l2 : fav_names (l1 ++ l2) = fav_names l1 ++ fav_names l2.
Proof. apply omap_app. Qed.

Lemma favorites_for_mood_unique places p m :
  favorites_unique p -> favorites_unique (favorites_for_mood places p m).
Proof.
  intros Hu m'.
  destruct (favorites_for_mood_spec places p m) as (_ & Hfav & _).
  rewrite Hfav. destruct (decide (m' = m)) as [->|Hne]; [|apply Hu].
  rewrite fav_names_app. apply NoDup_app. split; [apply Hu|]. split.
  - intros n Hold Hnew. now apply new_favorite_fresh in Hnew.
  - unfold new_favorite.
    destruct (first_new_place m places (fav_list_of p m)); simpl.
    + apply NoDup_singleton.
    + apply NoDup_nil_2.
Qed.

Lemma favorites_for_mood_well_formed places p m :
  well_formed p -> well_formed (favorites_for_mood places p m).
Proof.
  intros [Hh Hd].
  destruct (favorites_for_mood_spec places p m) as (Hhist & Hfav & _).
  split; [now rewrite Hhist|]. intros m'. rewrite Hfav.
  destruct (decide (m' = m)) as [->|Hne]; [|apply Hd].
  apply Forall_app. split; [apply Hd|]. unfold new_favorite.
  destruct (first_new_place m places (fav_list_of p m)); repeat constructor.
Qed.

Lemma update_favorites_preserves (P : profile -> Prop) places :
  (forall p m, P p -> P (favorites_for_mood places p m)) ->
  forall moods p, P p -> P (update_favorites moods places p).
Proof.
  intros Hstep moods. unfold update_favorites.
  induction moods as [|m rest IH]; intros p Hp; simpl; [exact Hp|].
  apply IH. now apply Hstep.
Qed.

Lemma without_name_sublist n favs favs' :
  without_name n favs = Ok favs' -> favs' `sublist_of` favs.
Proof.
  revert favs'. induction favs as [|[n0 t0|] r IH]; intros favs' H; simpl in H.
  - injection H as <-. constructor.
  - destruct (without_name n r) as [r'|e] eqn:E; [|discriminate].
    simpl in H. injection H as <-. specialize (IH r' eq_refl).
    destruct (String.eqb n0 n).
    + now apply sublist_cons.
    + now apply sublist_skip.
  - discriminate.
Qed.

Lemma without_name_total n favs :
  Forall is_fav_dict favs -> exists favs', without_name n favs = Ok favs'.
Proof.
  induction 1 as [|[n0 t0|] r Hx Hr [r' IH]]; simpl.
  - now eexists.
  - rewrite IH. simpl. now eexists.
  - contradiction.
Qed.

Lemma fav_names_sublist l1 l2 :
  l1 `sublist_of` l2 -> fav_names l1 `sublist_of` fav_names l2.
Proof.
  induction 1 as [|x l1 l2 _ IH|x l1 l2 _ IH]; simpl.
  - constructor.
  - unfold fav_names in *. simpl. destruct x; simpl.
    + now apply sublist_skip.
    + exact IH.
  - unfold fav_names in *. simpl. destruct x; simpl.
    + now apply sublist_cons.
    + exact IH.
Qed.

Lemma remove_favorite_unique p m n p' :
  favorites_unique p -> remove_favorite p m n = Ok p' -> favorites_unique p'.
Proof.
  intros Hu. unfold remove_favorite.
  destruct (default ∅ (favorites p) !! m) as [favs|] eqn:E.
  - destruct (without_name n favs) as [favs'|e] eqn:Ew; [|discriminate].
    simpl. intros [= <-] m'. rewrite fav_list_of_set_fav_list.
    destruct (decide (m' = m)) as [->|Hne]; [|apply Hu].
    apply (sublist_NoDup _ (fav_names favs)).
    + specialize (Hu m). unfold fav_list_of in Hu. now rewrite E in Hu.
    + apply fav_names_sublist. eapply without_name_sublist. exact Ew.
  - now intros [= <-].
Qed.

Lemma Forall_of_sublist {A : Type} (P : A -> Prop) (l1 l2 : list A) :
  l1 `sublist_of` l2 -> Forall P l2 -> Forall P l1.
Proof.
  induction 1 as [|x l1 l2 _ IH|x l1 l2 _ IH]; intros Hall.
  - constructor.
  - apply Forall_cons in Hall as [Hx Hr]. constructor; [exact Hx|now apply IH].
  - apply Forall_cons in Hall as [_ Hr]. now apply IH.
Qed.

Lemma remove_favorite_well_formed p m n :
  well_formed p ->
  exists p', remove_favorite p m n = Ok p' /\ well_formed p'.
Proof.
  intros [Hh Hd]. unfold remove_favorite.
  destruct (default ∅ (favorites p) !! m) as [favs|] eqn:E.
  - assert (Hfavs : Forall is_fav_dict favs).
    { specialize (Hd m). unfold fav_list_of in Hd. now rewrite E in Hd. }
    destruct (without_name_total n favs Hfavs) as [favs' Ew].
    rewrite Ew. simpl. eexists. split; [reflexivity|].
    split; [exact Hh|]. intros m'. rewrite fav_list_of_set_fav_list.
    destruct (decide (m' = m)) as [->|Hne]; [|apply Hd].
    eapply Forall_of_sublist; [|exact Hfavs].
    eapply without_name_sublist. exact Ew.
  - exists p. now split.
Qed.

Lemma apply_operation_unique p op p' :
  favorites_unique p -> apply_operation p op = Ok p' -> favorites_unique p'.
Proof.
  intros Hu. destruct op as [moods places|m n|e|m n]; simpl.
  - intros [= <-]. apply update_favorites_preserves; [|exact Hu].
    intros. now apply favorites_for_mood_unique.
  - now apply remove_favorite_unique.
  - unfold save_history. destruct (history p); [|discriminate].
    intros [= <-]. exact Hu.
  - intros [= <-]. exact Hu.
Qed.

Lemma apply_operation_well_formed p op :
  well_formed p ->
  exists p', apply_operation p op = Ok p' /\ well_formed p'.
Proof.
  intros Hw. destruct op as [moods places|m n|e|m n]; simpl.
  - eexists. split; [reflexivity|].
    apply update_favorites_preserves; [|exact Hw].
    intros. now apply favorites_for_mood_well_formed.
  - now apply remove_favorite_well_formed.
  - destruct Hw as [[h Hh] Hd]. unfold save_history. rewrite Hh.
    eexists. split; [reflexivity|]. split; [now eexists|exact Hd].
  - eexists. split; [reflexivity|]. exact Hw.
Qed.

Lemma apply_operations_unique ops : forall p p',
  favorites_unique p -> apply_operations p ops = Ok p' -> favorites_unique p'.
Proof.
  induction ops as [|op rest IH]; intros p p' Hu; simpl.
  - now intros [= <-].
  - destruct (apply_operation p op) as [p1|e] eqn:E; [|discriminate].
    simpl. apply IH. eapply apply_operation_unique; eassumption.
Qed.

Lemma apply_operations_well_formed ops : forall p,
  well_formed p ->
  exists p', apply_operations p ops = Ok p' /\ well_formed p'.
Proof.
  induction ops as [|op rest IH]; intros p Hw; simpl.
  - now exists p.
  - destruct (apply_operation_well_formed p op Hw) as (p1 & E & Hw1).
    rewrite E. simpl. now apply IH.
Qed.

(** C9. On a profile with at most one favorite per (mood, name), every
    sequence of profile operations that runs to its end leaves at most one
    favorite per (mood, name); on a profile of the shape the program writes
    every sequence does run to its end. Offering a place whose name is
    already a favorite of the mood leaves that mood's list as it is;
    offering a matching place of a new name appends it, and offering it a
    second time changes nothing. *)
Theorem favorites_one_entry_per_name (p : profile) :
  favorites_unique p ->
  (forall ops p', apply_operations p ops = Ok p' -> favorites_unique p')
  /\ (well_formed p ->
      forall ops, exists p',
        apply_operations p ops = Ok p'
        /\ favorites_unique p' /\ well_formed p')
  /\ (forall m place,
        any_named (name place) (fav_list_of p m) = true ->
        fav_list_of (favorites_for_mood [place] p m) m = fav_list_of p m)
  /\ (forall m place,
        MoodInPlace (tags place) m = true ->
        any_named (name place) (fav_list_of p m) = false ->
        let p1 := favorites_for_mood [place] p m in
        fav_list_of p1 m
        = fav_list_of p m ++ [FavDict (name place) (tags place)]
        /\ fav_list_of (favorites_for_mood [place] p1 m) m
           = fav_list_of p1 m).
Proof.
  intros Hu. split; [|split; [|split]].
  - intros ops p'. now apply apply_operations_unique.
  - intros Hw ops.
    destruct (apply_operations_well_formed ops p Hw) as (p' & E & Hw').
    exists p'. split; [exact E|]. split; [|exact Hw'].
    eapply apply_operations_unique; eassumption.
  - intros m place Hold.
    destruct (favorites_for_mood_spec [place] p m) as (_ & Hfav & _).
    rewrite Hfav. destruct (decide (m = m)); [|congruence].
    unfold new_favorite, first_new_place. simpl. rewrite Hold.
    rewrite andb_false_r. apply app_nil_r.
  - intros m place Hm Hnew p1.
    assert (H1 : fav_list_of p1 m
                 = fav_list_of p m ++ [FavDict (name place) (tags place)]).
    { subst p1.
      destruct (favorites_for_mood_spec [place] p m) as (_ & Hfav & _).
      rewrite Hfav. destruct (decide (m = m)); [|congruence].
      unfold new_favorite, first_new_place. simpl. now rewrite Hm, Hnew. }
    split; [exact H1|].
    destruct (favorites_for_mood_spec [place] p1 m) as (_ & Hfav & _).
    rewrite Hfav. destruct (decide (m = m)); [|congruence].
    assert (Hnow : any_named (name place) (fav_list_of p1 m) = true).
    { apply any_named_spec. rewrite H1, fav_names_app.
      apply elem_of_app. right. now apply list_elem_of_singleton. }
    unfold new_favorite, first_new_place. simpl. rewrite Hnow.
    rewrite andb_false_r. apply app_nil_r.
Qed.

Lemma new_favorite_ext m places p q :
  fav_list_of q m = fav_list_of p m ->
  new_favorite m places q = new_favorite m places p.
Proof. intros H. unfold new_favorite. now rewrite H. Qed.

Lemma update_favorites_spec places moods : forall p,
  NoDup moods ->
  let p' := update_favorites moods places p in
  (forall m, fav_list_of p' m
             = fav_list_of p m
               ++ (if decide (m ∈ moods) then new_favorite m places p else []))
  /\ (forall m, mood_count p' m
                = mood_count p m
                  + (if decide (m ∈ moods)
                     then Z.of_nat (length (new_favorite m places p)) else 0))
  /\ (forall n, place_count p' n
                = place_count p n
                  + Z.of_nat (moods_adding n moods places p)).
Proof.
  unfold update_favorites.
  induction moods as [|m0 rest IH]; intros p Hnd; simpl.
  - split; [|split]; intros; [now rewrite app_nil_r|lia|].
    unfold moods_adding. simpl. lia.
  - apply NoDup_cons in Hnd as [Hm0 Hnd].
    destruct (favorites_for_mood_spec places p m0) as (_ & Hf1 & Hm1 & Hp1).
    set (p1 := favorites_for_mood places p m0) in *.
    destruct (IH p1 Hnd) as (Hf & Hm & Hp).
    assert (Hsame : forall m, m ∈ rest ->
              new_favorite m places p1 = new_favorite m places p).
    { intros m Hin. apply new_favorite_ext. rewrite Hf1.
      destruct (decide (m = m0)) as [->|]; [contradiction|reflexivity]. }
    split; [|split].
    + intros m. rewrite Hf, Hf1.
      destruct (decide (m = m0)) as [->|Hne].
      * destruct (decide (m0 ∈ rest)); [contradiction|].
        destruct (decide (m0 ∈ m0 :: rest)) as [_|Hn];
          [now rewrite app_nil_r|].
        exfalso. apply Hn. now left.
      * destruct (decide (m ∈ rest)) as [Hin|Hnin].
        -- destruct (decide (m ∈ m0 :: rest)) as [_|Hn];
             [now rewrite Hsame|].
           exfalso. apply Hn. now right.
        -- destruct (decide (m ∈ m0 :: rest)) as [Hin|_]; [|reflexivity].
           apply elem_of_cons in Hin as [?|?]; contradiction.
    + intros m. rewrite Hm, Hm1.
      destruct (decide (m = m0)) as [->|Hne].
      * destruct (decide (m0 ∈ rest)); [contradiction|].
        destruct (decide (m0 ∈ m0 :: rest)) as [_|Hn];
          [now rewrite Z.add_0_r|].
        exfalso. apply Hn. now left.
      * destruct (decide (m ∈ rest)) as [Hin|Hnin].
        -- destruct (decide (m ∈ m0 :: rest)) as [_|Hn];
             [now rewrite Hsame|].
           exfalso. apply Hn. now right.
        -- destruct (decide (m ∈ m0 :: rest)) as [Hin|_]; [|reflexivity].
           apply elem_of_cons in Hin as [?|?]; contradiction.
    + intros n. rewrite Hp, Hp1.
      assert (Hrest : moods_adding n rest places p1
                      = moods_adding n rest places p).
      { unfold moods_adding. f_equal. apply filter_ext_in.
        intros m Hin. apply list_elem_of_In in Hin. now rewrite Hsame. }
      rewrite Hrest. unfold moods_adding. simpl.
      destruct (bool_decide (n ∈ fav_names (new_favorite m0 places p)));
        simpl length; lia.
Qed.

(** C10. In the favorites update of one search over distinct moods, each
    selected mood gets at most one new favorite, appended to its list: the
    first place of the combined list that matches the mood and is not yet
    a favorite of it, if there is one. The mood's usage counter goes up by
    one exactly when the mood gets a new favorite, and the place counter
    of a name goes up once for each mood that adds a favorite of that
    name; moods that are not selected keep their list and counter. *)
Theorem update_favorites_one_per_mood moods places p :
  NoDup moods ->
  let p' := update_favorites moods places p in
  (forall m, m ∈ moods ->
     (length (new_favorite m places p) <= 1)%nat
     /\ fav_list_of p' m = fav_list_of p m ++ new_favorite m places p
     /\ mood_count p' m
        = mood_count p m + Z.of_nat (length (new_favorite m places p)))
  /\ (forall m, m ∉ moods ->
        fav_list_of p' m = fav_list_of p m
        /\ mood_count p' m = mood_count p m)
  /\ (forall n, place_count p' n
                = place_count p n
                  + Z.of_nat (moods_adding n moods places p))
  /\ (forall m,
        match first_new_place m places (fav_list_of p m) with
        | Some place =>
            new_favorite m places p = [FavDict (name place) (tags place)]
            /\ MoodInPlace (tags place) m = true
            /\ any_named (name place) (fav_list_of p m) = false
            /\ exists before after,
                places = before ++ place :: after
                /\ forall x, In x before ->
                     MoodInPlace (tags x) m = false
                     \/ any_named (name x) (fav_list_of p m) = true
        | None =>
            new_favorite m places p = []
            /\ forall x, In x places ->
                 MoodInPlace (tags x) m = false
                 \/ any_named (name x) (fav_list_of p m) = true
        end).
Proof.
  intros Hnd p'. subst p'.
  destruct (update_favorites_spec places moods p Hnd) as (Hf & Hm & Hp).
  split; [|split; [|split]].
  - intros m Hin. split; [apply new_favorite_length|].
    rewrite Hf, Hm. destruct (decide (m ∈ moods)); [|contradiction].
    now split.
  - intros m Hnin. rewrite Hf, Hm.
    destruct (decide (m ∈ moods)); [contradiction|].
    rewrite app_nil_r, Z.add_0_r. now split.
  - exact Hp.
  - intros m. unfold new_favorite.
    destruct (first_new_place m places (fav_list_of p m)) as [place|] eqn:E.
    + split; [reflexivity|]. now apply first_new_place_spec.
    + split; [reflexivity|]. now apply first_new_place_none.
Qed.

(** ** The theorems at sample inputs *)

Lemma save_history_keeps_most_recent_witness :
  history empty_profile = Some []
  /\ exists p' h',
      save_history_all empty_profile sample_entries = Ok p'
      /\ history p' = Some h'
      /\ favorites p' = favorites empty_profile
      /\ mood_usage p' = mood_usage empty_profile
      /\ place_usage p' = place_usage empty_profile
      /\ ((50 < length sample_entries)%nat ->
          length h' = 50%nat /\ h' = last_n 50 sample_entries)
      /\ ((length sample_entries <= 50)%nat ->
          exists older, h' = older ++ sample_entries /\ older `suffix_of` [])
      /\ ((length sample_entries <= 50)%nat ->
          @nil history_entry = [] -> h' = sample_entries).
Proof.
  split; [reflexivity|].
  apply (save_history_keeps_most_recent empty_profile [] sample_entries).
  reflexivity.
Defined.

Example save_history_51_drops_oldest :
  save_history_all empty_profile sample_entries
  = Ok (set_history empty_profile (map sample_entry (seq 1 50)))
  /\ match save_history_all empty_profile sample_entries with
     | Ok p' => history p' = Some (map sample_entry (seq 1 50))
     | Raise _ => False
     end.
Proof. vm_compute. split; reflexivity. Qed.

Lemma remove_dups_is_list_of_set (l : list mood) :
  NoDup (remove_dups l) /\ forall m, In m (remove_dups l) <-> In m l.
Proof.
  split; [apply NoDup_remove_dups|].
  intros m. rewrite <- !list_elem_of_In. apply elem_of_remove_dups.
Qed.

Lemma detect_moods_from_text_spec_witness :
  (forall l : list mood,
      NoDup (remove_dups l) /\ forall m, In m (remove_dups l) <-> In m l)
  /\ detect_moods_from_text (fun _ => 0%Q) remove_dups "I feel SAD, not Happy"
     <> []
  /\ NoDup (detect_moods_from_text (fun _ => 0%Q) remove_dups
              "I feel SAD, not Happy").
Proof.
  split; [exact remove_dups_is_list_of_set|].
  pose proof (detect_moods_from_text_spec (fun _ => 0%Q) remove_dups
                remove_dups_is_list_of_set "I feel SAD, not Happy") as H.
  simpl in H. destruct H as (Hne & Hnd & _). split; [exact Hne|exact Hnd].
Defined.

Example detect_literal_moods :
  detect_moods_from_text (fun _ => 0%Q) remove_dups "I feel SAD, not Happy"
  = [happy; sad].
Proof. vm_compute. reflexivity. Qed.

Example detect_by_polarity :
  detect_moods_from_text (fun _ => 1 # 2)%Q remove_dups "I feel great today"
  = [happy]
  /\ detect_moods_from_text (fun _ => double_0_4) remove_dups "so so"
     = [adventurous]
  /\ detect_moods_from_text (fun _ => - (1 # 2))%Q remove_dups "awful"
     = [sad].
Proof. vm_compute. repeat split. Qed.

Lemma empty_profile_unique : favorites_unique empty_profile.
Proof. intros m. unfold fav_list_of. simpl. rewrite lookup_empty. constructor. Qed.

Lemma empty_profile_well_formed : well_formed empty_profile.
Proof.
  split; [now eexists|]. intros m. unfold fav_list_of. simpl.
  rewrite lookup_empty. constructor.
Qed.

Lemma favorites_one_entry_per_name_witness :
  favorites_unique empty_profile
  /\ well_formed empty_profile
  /\ exists p',
      apply_operations empty_profile sample_operations = Ok p'
      /\ favorites_unique p' /\ well_formed p'.
Proof.
  split; [exact empty_profile_unique|].
  split; [exact empty_profile_well_formed|].
  apply (favorites_one_entry_per_name empty_profile empty_profile_unique).
  exact empty_profile_well_formed.
Defined.

Example sample_operations_favorites :
  exists p',
    apply_operations empty_profile sample_operations = Ok p'
    /\ fav_list_of p' happy = [FavDict "Central Perk" (tags central_perk)]
    /\ fav_list_of p' sad = [FavDict "Green Park" (tags green_park)]
    /\ mood_count p' happy = 1 /\ mood_count p' sad = 2
    /\ place_count p' "Green Park" = 2.
Proof. eexists. split; [reflexivity|]. vm_compute. repeat split. Qed.

Lemma update_favorites_one_per_mood_witness :
  NoDup [happy; sad]
  /\ forall n,
      place_count (update_favorites [happy; sad] sample_places empty_profile) n
      = place_count empty_profile n
        + Z.of_nat (moods_adding n [happy; sad] sample_places empty_profile).
Proof.
  assert (Hnd : NoDup [happy; sad]).
  { repeat constructor; intros H;
      repeat (apply elem_of_cons in H as [H|H]; [discriminate|]);
      now apply not_elem_of_nil in H. }
  split; [exact Hnd|].
  apply (update_favorites_one_per_mood [happy; sad] sample_places
           empty_profile Hnd).
Defined.

(** The stub scenario of the specification, with the distance read off
    the longitude: three cafes come back nearest first. *)
Example fetch_overpass_sorts_by_distance :
  let cafe lo := mkElement (Some {[ "amenity" := "cafe" ]}%string)
                   (Some (1 # 1)%Q) (Some lo) None in
  map distance
    (fst (fetch_overpass (fun _ b => snd b)
            (fun _ => Json (mkData (Some [cafe (5 # 10); cafe (12 # 10);
                                          cafe (3 # 10)]%Q)))
            (0, 0)%Q happy 2500 fresh_world))
  = [3 # 10; 5 # 10; 12 # 10]%Q
  /\ map name
       (fst (fetch_overpass (fun _ b => snd b)
               (fun _ => Json (mkData (Some [cafe (5 # 10)%Q])))
               (0, 0)%Q happy 2500 fresh_world))
     = ["Unnamed"%string].
Proof. vm_compute. split; reflexivity. Qed.

(** A whole search for two moods against a stub provider: the cafe is
    returned for happy at 1.0 km and for sad at 0.4 km, the park for sad
    only. The nearer "Central Perk" survives, the search is recorded, and
    each mood gets its first matching place as a favorite. *)
Example recommend_two_moods :
  let cafe lo := mkElement
                   (Some {[ "name" := "Central Perk"; "amenity" := "cafe" ]})
                   (Some (1 # 1)%Q) (Some lo) None in
  let park lo := mkElement
                   (Some {[ "name" := "Green Park"; "leisure" := "park" ]})
                   (Some (1 # 1)%Q) (Some lo) None in
  let provider n := match n with
                    | O => Json (mkData (Some [cafe (1 # 1)%Q]))
                    | _ => Json (mkData (Some [park (7 # 10)%Q;
                                               cafe (4 # 10)%Q]))
                    end in
  exists p' w',
    recommend (fun _ b => snd b) provider (0, 0)%Q "happy or sad"
      [happy; sad] 2500 "2024-01-01T00:00:00" empty_profile fresh_world
    = Ok (p', w')
    /\ requests_made w' = 2%nat
    /\ size (CACHE w') = 2%nat
    /\ fav_names (fav_list_of p' happy) = ["Central Perk"]
    /\ fav_names (fav_list_of p' sad) = ["Green Park"]
    /\ place_count p' "Central Perk" = 1
    /\ mood_count p' sad = 1
    /\ (length <$> history p') = Some 1%nat.
Proof.
  simpl. eexists _, _. split; [vm_compute; reflexivity|].
  vm_compute. repeat split.
Qed.

(** * Further properties *)

(** ** Fetching: what a call can and cannot change *)

Section FetchMore.

Variable geodesic_km : coords -> coords -> Q.
Variable overpass : nat -> response.

Lemma request_loop_effects w :
  let r := request_loop overpass [1; 2; 3] w in
  (requests_made w < requests_made (snd r) <= requests_made w + 3)%nat
  /\ geocodes_made (snd r) = geocodes_made w
  /\ CACHE (snd r) = CACHE w
  /\ exists k, (k <= 2)%nat /\ slept (snd r) = slept w ++ take k [2 # 1; 4 # 1].
Proof.
  simpl.
  destruct (overpass (requests_made w)) as [d0|]; simpl.
  { split; [lia|]. split; [reflexivity|]. split; [reflexivity|].
    exists 0%nat. split; [lia|now rewrite app_nil_r]. }
  destruct (overpass (S (requests_made w))) as [d1|]; simpl.
  { split; [lia|]. split; [reflexivity|]. split; [reflexivity|].
    exists 1%nat. split; [lia|reflexivity]. }
  destruct (overpass (S (S (requests_made w)))) as [d2|]; simpl;
    (split; [lia|]; split; [reflexivity|]; split; [reflexivity|];
     exists 2%nat; split; [lia|now rewrite <- app_assoc]).
Qed.

Lemma fetch_overpass_requests_cache c m radius w :
  let w' := snd (fetch_overpass geodesic_km overpass c m radius w) in
  (requests_made w <= requests_made w' <= requests_made w + 3)%nat
  /\ geocodes_made w' = geocodes_made w
  /\ (forall key, key <> make_cache_key c m radius ->
                  CACHE w' !! key = CACHE w !! key)
  /\ (forall key, is_Some (CACHE w !! key) -> is_Some (CACHE w' !! key)).
Proof.
  unfold fetch_overpass.
  destruct (CACHE w !! make_cache_key c m radius) as [cached|] eqn:Ec.
  - simpl. split; [lia|]. split; [reflexivity|]. split; [reflexivity|tauto].
  - change (range 1 (Z.to_nat fetch_retries)) with [1; 2; 3].
    pose proof (request_loop_effects w) as (Hr & Hg & Hc & _).
    destruct (request_loop overpass [1; 2; 3] w) as [[d|] w1]; simpl in *.
    + split; [lia|]. split; [exact Hg|]. rewrite Hc. split.
      * intros key Hne. now rewrite lookup_insert_ne by congruence.
      * intros key Hk.
        destruct (decide (key = make_cache_key c m radius)) as [->|Hne].
        -- rewrite lookup_insert_eq. now eexists.
        -- now rewrite lookup_insert_ne by congruence.
    + split; [lia|]. split; [exact Hg|]. rewrite Hc.
      split; [reflexivity|tauto].
Qed.

(** X1. Whatever the provider answers, one call of [fetch_overpass] makes
    at most three requests, sleeps nothing, 2 seconds, or 2 and then 4
    seconds, calls no geocoder, leaves every cache entry under another key
    as it is and removes none. *)
Theorem fetch_overpass_frame c m radius w :
  let w' := snd (fetch_overpass geodesic_km overpass c m radius w) in
  (requests_made w <= requests_made w' <= requests_made w + 3)%nat
  /\ geocodes_made w' = geocodes_made w
  /\ (exists k, (k <= 2)%nat /\ slept w' = slept w ++ take k [2 # 1; 4 # 1])
  /\ (forall key, key <> make_cache_key c m radius ->
                  CACHE w' !! key = CACHE w !! key)
  /\ (forall key, is_Some (CACHE w !! key) -> is_Some (CACHE w' !! key)).
Proof.
  unfold fetch_overpass.
  destruct (CACHE w !! make_cache_key c m radius) as [cached|] eqn:Ec.
  - simpl. split; [lia|]. split; [reflexivity|].
    split; [exists 0%nat; split; [lia|now rewrite app_nil_r]|].
    split; [reflexivity|tauto].
  - change (range 1 (Z.to_nat fetch_retries)) with [1; 2; 3].
    pose proof (request_loop_effects w) as (Hr & Hg & Hc & Hs).
    destruct (request_loop overpass [1; 2; 3] w) as [[d|] w1]; simpl in *.
    + split; [lia|]. split; [exact Hg|]. split; [exact Hs|].
      rewrite Hc. split.
      * intros key Hne. now rewrite lookup_insert_ne by congruence.
      * intros key Hk.
        destruct (decide (key = make_cache_key c m radius)) as [->|Hne].
        -- rewrite lookup_insert_eq. now eexists.
        -- now rewrite lookup_insert_ne by congruence.
    + split; [lia|]. split; [exact Hg|]. split; [exact Hs|].
      rewrite Hc. split; [reflexivity|tauto].
Qed.

Lemma request_loop_first_success w i d :
  (i < 3)%nat ->
  (forall j, (j < i)%nat ->
             overpass (requests_made w + j) = RequestException) ->
  overpass (requests_made w + i) = Json d ->
  exists w',
    request_loop overpass [1; 2; 3] w = (Some d, w')
    /\ CACHE w' = CACHE w
    /\ geocodes_made w' = geocodes_made w
    /\ requests_made w' = (requests_made w + i + 1)%nat
    /\ slept w' = slept w ++ take i [2 # 1; 4 # 1].
Proof.
  intros Hi Hfail Hok.
  assert (i = 0 \/ i = 1 \/ i = 2)%nat as [-> | [-> | ->]] by lia.
  - rewrite Nat.add_0_r in Hok. simpl. rewrite Hok.
    eexists. split; [reflexivity|]. simpl.
    repeat split; [lia|now rewrite app_nil_r].
  - pose proof (Hfail 0%nat ltac:(lia)) as H0. rewrite Nat.add_0_r in H0.
    replace (requests_made w + 1)%nat with (S (requests_made w)) in Hok
      by lia.
    simpl. rewrite H0. simpl. rewrite Hok.
    eexists. split; [reflexivity|]. simpl. repeat split. lia.
  - pose proof (Hfail 0%nat ltac:(lia)) as H0. rewrite Nat.add_0_r in H0.
    pose proof (Hfail 1%nat ltac:(lia)) as H1.
    replace (requests_made w + 1)%nat with (S (requests_made w)) in H1
      by lia.
    replace (requests_made w + 2)%nat with (S (S (requests_made w))) in Hok
      by lia.
    simpl. rewrite H0. simpl. rewrite H1. simpl. rewrite Hok.
    eexists. split; [reflexivity|]. simpl.
    repeat split; [lia|now rewrite <- app_assoc].
Qed.

(** X2. On a cache miss whose first successful attempt is the one of index
    [i] (0, 1 or 2), [fetch_overpass] returns the places of that response
    sorted by distance, stores exactly that list under the key, has made
    [i + 1] requests and slept the first [i] of the delays 2 and 4. *)
Theorem fetch_overpass_first_success c m radius w i d :
  CACHE w !! make_cache_key c m radius = None ->
  (i < 3)%nat ->
  (forall j, (j < i)%nat ->
             overpass (requests_made w + j) = RequestException) ->
  overpass (requests_made w + i) = Json d ->
  let r := fetch_overpass geodesic_km overpass c m radius w in
  fst r = sort_by_distance (places_of_data geodesic_km c d)
  /\ CACHE (snd r) = <[make_cache_key c m radius := fst r]> (CACHE w)
  /\ requests_made (snd r) = (requests_made w + i + 1)%nat
  /\ slept (snd r) = slept w ++ take i [2 # 1; 4 # 1].
Proof.
  intros Hmiss Hi Hfail Hok r. subst r. unfold fetch_overpass.
  rewrite Hmiss. change (range 1 (Z.to_nat fetch_retries)) with [1; 2; 3].
  destruct (request_loop_first_success w i d Hi Hfail Hok)
    as (w' & Hloop & Hc & _ & Hr & Hs).
  rewrite Hloop. simpl. rewrite Hc. now repeat split.
Qed.

End FetchMore.

(** ** Fetching: order and content of the result *)

Lemma insert_by_distance_at_distance d p l :
  at_distance d (insert_by_distance p l) = at_distance d (p :: l).
Proof.
  unfold at_distance. induction l as [|q r IH]; [reflexivity|].
  simpl insert_by_distance.
  destruct (Qle_bool (distance p) (distance q)) eqn:E; [reflexivity|].
  change (List.filter ?f (q :: ?t))
    with (if f q then q :: List.filter f t else List.filter f t).
  rewrite IH. simpl.
  destruct (Qeq_bool (distance p) d) eqn:Ep;
    destruct (Qeq_bool (distance q) d) eqn:Eq; try reflexivity.
  exfalso. apply Qeq_bool_iff in Ep. apply Qeq_bool_iff in Eq.
  assert (Hle : (distance p <= distance q)%Q) by (rewrite Ep, Eq; apply Qle_refl).
  apply Qle_bool_iff in Hle. congruence.
Qed.

Lemma sort_by_distance_at_distance d l :
  at_distance d (sort_by_distance l) = at_distance d l.
Proof.
  induction l as [|p r IH]; [reflexivity|]. simpl sort_by_distance.
  rewrite insert_by_distance_at_distance. unfold at_distance in *. simpl.
  now rewrite IH.
Qed.

Section FetchOrder.

Variable geodesic_km : coords -> coords -> Q.
Variable overpass : nat -> response.

Lemma request_loop_cache attempts : forall w,
  CACHE (snd (request_loop overpass attempts w)) = CACHE w.
Proof.
  induction attempts as [|a rest IH]; intros w; simpl; [reflexivity|].
  destruct (overpass (requests_made w)); simpl; [reflexivity|].
  rewrite IH. now destruct (a <? fetch_retries).
Qed.

(** X3. If every list in the cache is in ascending order of distance,
    then so is the list that [fetch_overpass] returns, from the cache or
    from the provider, and so is every list in the cache afterwards. *)
Theorem fetch_overpass_keeps_cache_sorted c m radius w :
  cache_sorted w ->
  let r := fetch_overpass geodesic_km overpass c m radius w in
  StronglySorted by_distance (fst r) /\ cache_sorted (snd r).
Proof.
  intros Hinv r. subst r. unfold fetch_overpass.
  destruct (CACHE w !! make_cache_key c m radius) as [cached|] eqn:Ec.
  - simpl. split; [now apply (Hinv _ _ Ec)|exact Hinv].
  - pose proof (request_loop_cache (range 1 (Z.to_nat fetch_retries)) w)
      as Hc.
    destruct (request_loop overpass (range 1 (Z.to_nat fetch_retries)) w)
      as [[d|] w']; simpl in *.
    + split; [apply sort_by_distance_sorted|].
      intros k v. unfold cache_put. simpl. rewrite Hc.
      destruct (decide (k = make_cache_key c m radius)) as [->|Hne].
      * rewrite lookup_insert_eq. intros [= <-].
        apply sort_by_distance_sorted.
      * rewrite lookup_insert_ne by congruence. apply Hinv.
    + split; [constructor|]. intros k v. rewrite Hc. apply Hinv.
Qed.

(** X4. On a cache miss answered by the response [d], the list returned
    holds exactly the places built from the elements of [d], each as often
    as it was built, and places at the same distance keep the order in
    which the provider listed them. *)
Theorem fetch_overpass_stable_permutation c m radius w i d :
  CACHE w !! make_cache_key c m radius = None ->
  (i < 3)%nat ->
  (forall j, (j < i)%nat ->
             overpass (requests_made w + j) = RequestException) ->
  overpass (requests_made w + i) = Json d ->
  let places := fst (fetch_overpass geodesic_km overpass c m radius w) in
  places ≡ₚ places_of_data geodesic_km c d
  /\ forall dist,
       at_distance dist places
       = at_distance dist (places_of_data geodesic_km c d).
Proof.
  intros Hmiss Hi Hfail Hok places. subst places. unfold fetch_overpass.
  rewrite Hmiss. change (range 1 (Z.to_nat fetch_retries)) with [1; 2; 3].
  destruct (request_loop_first_success overpass w i d Hi Hfail Hok)
    as (w' & Hloop & _).
  rewrite Hloop. simpl. split.
  - apply sort_by_distance_perm.
  - intros dist. apply sort_by_distance_at_distance.
Qed.

(** X5. A place built from an element has the element's tags, the name
    tag as its name, or "Unnamed" without one, and its distance is the
    geodesic distance from the origin to its coordinates. Neither of its
    coordinates is zero. Each coordinate is the element's own when that is
    present and not zero, and otherwise the one of its center. *)
Theorem place_of_element_sound origin el p :
  place_of_element geodesic_km origin el = Some p ->
  tags p = default ∅ (el_tags el)
  /\ name p = default "Unnamed"%string (tags p !! "name"%string)
  /\ distance p = geodesic_km origin (lat p, lon p)
  /\ ~ (lat p == 0)%Q /\ ~ (lon p == 0)%Q
  /\ (forall la, el_lat el = Some la -> ~ (la == 0)%Q -> lat p = la)
  /\ (forall lo, el_lon el = Some lo -> ~ (lo == 0)%Q -> lon p = lo)
  /\ (el_lat el = Some (lat p)
      \/ exists ctr, el_center el = Some ctr /\ center_lat ctr = Some (lat p))
  /\ (el_lon el = Some (lon p)
      \/ exists ctr, el_center el = Some ctr /\ center_lon ctr = Some (lon p)).
Proof.
  unfold place_of_element.
  set (ctr := default (mkCenter None None) (el_center el)).
  assert (Hctr : forall f x, f ctr = Some x ->
            (f = center_lat \/ f = center_lon) ->
            exists c0, el_center el = Some c0 /\ f c0 = Some x).
  { intros f x Hf Hwhich. subst ctr.
    destruct (el_center el) as [c0|]; simpl in Hf.
    - now exists c0.
    - destruct Hwhich as [-> | ->]; discriminate. }
  destruct (truthy (py_or (el_lat el) (center_lat ctr))) eqn:Tla;
    [|discriminate].
  destruct (truthy (py_or (el_lon el) (center_lon ctr))) eqn:Tlo;
    [|discriminate].
  simpl.
  destruct (py_or (el_lat el) (center_lat ctr)) as [la|] eqn:Ela;
    [|discriminate].
  destruct (py_or (el_lon el) (center_lon ctr)) as [lo|] eqn:Elo;
    [|discriminate].
  intros [= <-]. simpl.
  assert (Hnz : forall q, truthy (Some q) = true -> ~ (q == 0)%Q).
  { intros q Hq. simpl in Hq. apply negb_true_iff in Hq.
    intros Hz. apply Qeq_bool_iff in Hz. congruence. }
  assert (Hz : forall q, ~ (q == 0)%Q -> truthy (Some q) = true).
  { intros q Hq. simpl. apply negb_true_iff. apply not_true_iff_false.
    now rewrite Qeq_bool_iff. }
  split; [reflexivity|]. split; [reflexivity|]. split; [reflexivity|].
  split; [now apply Hnz|]. split; [now apply Hnz|].
  unfold py_or in Ela, Elo.
  split; [|split; [|split]].
  - intros la0 Hla0 Hne. rewrite Hla0, (Hz la0 Hne) in Ela. congruence.
  - intros lo0 Hlo0 Hne. rewrite Hlo0, (Hz lo0 Hne) in Elo. congruence.
  - destruct (truthy (el_lat el)); [now left|].
    right. now apply (Hctr center_lat); [|left].
  - destruct (truthy (el_lon el)); [now left|].
    right. now apply (Hctr center_lon); [|right].
Qed.

End FetchOrder.

(** ** Aggregation: repeated and overlapping input *)

Lemma dict_set_fresh k v d :
  dict_get k d = None -> dict_set k v d = d ++ [(k, v)].
Proof.
  induction d as [|[k0 v0] r IH]; simpl; [reflexivity|].
  destruct (String.eqb k k0); [discriminate|].
  intros H. now rewrite IH.
Qed.

Lemma unique_fold_distinct l : forall d,
  NoDup (map name l) ->
  (forall p, In p l -> ~ In (name p) (map fst d)) ->
  fold_left unique_step l d = d ++ map (fun p => (name p, p)) l.
Proof.
  induction l as [|p r IH]; intros d Hnd Hfresh; simpl.
  - now rewrite app_nil_r.
  - apply NoDup_cons in Hnd as [Hp Hnd].
    assert (Hget : dict_get (name p) d = None).
    { apply dict_get_None. apply Hfresh. now left. }
    unfold unique_step at 2. rewrite Hget, (dict_set_fresh _ _ _ Hget).
    rewrite IH; [now rewrite <- app_assoc|exact Hnd|].
    intros q Hq. rewrite map_app, in_app_iff. simpl.
    intros [Hin|[Heq|[]]].
    + apply (Hfresh q); [now right|exact Hin].
    + apply Hp. rewrite Heq. apply list_elem_of_In. now apply in_map.
Qed.

Lemma sort_by_distance_sorted_id l :
  StronglySorted by_distance l -> sort_by_distance l = l.
Proof.
  induction 1 as [|p r Hs IH Hall]; simpl; [reflexivity|].
  rewrite IH. destruct r as [|q r']; [reflexivity|]. simpl.
  apply Forall_cons in Hall as [Hpq _].
  apply Qle_bool_iff in Hpq. now rewrite Hpq.
Qed.

Lemma combined_places_names_unique l : NoDup (map name (combined_places_of l)).
Proof.
  unfold combined_places_of.
  pose proof (unique_places_of_inv l) as Hinv.
  rewrite sort_by_distance_perm, (unique_values_names _ _ Hinv).
  now destruct Hinv.
Qed.

(** X6. Combining is idempotent: a list that is already a combined list
    comes back unchanged, entry for entry and in the same order. *)
Theorem combined_places_of_idempotent (all_places : list Place) :
  combined_places_of (combined_places_of all_places)
  = combined_places_of all_places.
Proof.
  set (c := combined_places_of all_places).
  assert (Hnd : NoDup (map name c)) by apply combined_places_names_unique.
  assert (Hs : StronglySorted by_distance c)
    by apply sort_by_distance_sorted.
  unfold combined_places_of at 1. unfold unique_places_of.
  rewrite (unique_fold_distinct c [] Hnd) by (intros ? _ []).
  simpl. unfold dict_values. rewrite map_map. simpl. rewrite map_id.
  now apply sort_by_distance_sorted_id.
Qed.

Lemma unique_step_seen seen d p :
  unique_inv seen d -> In p seen -> unique_step d p = d.
Proof.
  intros (Hnd & Hmin & Hcov) Hp. unfold unique_step.
  destruct (dict_get (name p) d) as [q|] eqn:E.
  - destruct (Hmin _ _ (dict_get_Some_In _ _ _ E)) as (_ & _ & Hle).
    specialize (Hle p Hp eq_refl). apply Qlt_bool_false in Hle.
    now rewrite Hle.
  - exfalso. apply dict_get_None in E. apply E. now apply Hcov.
Qed.

Lemma unique_fold_seen seen more : forall d,
  unique_inv seen d -> (forall p, In p more -> In p seen) ->
  fold_left unique_step more d = d.
Proof.
  induction more as [|p r IH]; intros d Hinv Hin; simpl; [reflexivity|].
  rewrite (unique_step_seen seen d p Hinv) by (apply Hin; now left).
  apply IH; [exact Hinv|]. intros q Hq. apply Hin. now right.
Qed.

(** X7. Places that were already in the input change nothing when they
    are met again: appending to the input a list of places that all occur
    in it leaves the combined list as it is. So a mood selected twice, or
    two moods returning the same entries, give the result of one. *)
Theorem combined_places_of_absorbs (all_places more : list Place) :
  (forall p, In p more -> In p all_places) ->
  combined_places_of (all_places ++ more) = combined_places_of all_places.
Proof.
  intros Hin. unfold combined_places_of. f_equal. f_equal.
  unfold unique_places_of at 1. rewrite fold_left_app.
  apply (unique_fold_seen all_places more); [|exact Hin].
  apply unique_places_of_inv.
Qed.

Lemma combined_places_of_nil_iff (all_places : list Place) :
  combined_places_of all_places = [] <-> all_places = [].
Proof.
  pose proof (unique_places_of_inv all_places) as Hinv.
  pose proof (unique_values_names _ _ Hinv) as Hnames.
  destruct Hinv as (_ & _ & Hcov).
  assert (Hperm : combined_places_of all_places
                  ≡ₚ dict_values (unique_places_of all_places))
    by apply sort_by_distance_perm.
  split.
  - intros Hnil. destruct all_places as [|p r]; [reflexivity|].
    exfalso. specialize (Hcov p (or_introl eq_refl)).
    rewrite <- Hnames in Hcov. rewrite Hnil in Hperm.
    apply Permutation_nil in Hperm. now rewrite Hperm in Hcov.
  - intros ->. reflexivity.
Qed.

(** X8. The combined list is never longer than the input, and it is empty
    only when the input is: as soon as one place was fetched, the search
    has something to show. *)
Theorem combined_places_of_length (all_places : list Place) :
  (length (combined_places_of all_places) <= length all_places)%nat
  /\ (combined_places_of all_places = [] <-> all_places = []).
Proof.
  split; [|apply combined_places_of_nil_iff].
  pose proof (unique_places_of_inv all_places) as Hinv.
  pose proof (unique_values_names _ _ Hinv) as Hnames.
  destruct Hinv as (Hnd & Hmin & _).
  assert (Hperm : combined_places_of all_places
                  ≡ₚ dict_values (unique_places_of all_places))
    by apply sort_by_distance_perm.
  rewrite Hperm, <- (length_map name), Hnames.
  rewrite <- (length_map name all_places).
  apply submseteq_length, NoDup_submseteq; [exact Hnd|].
  intros k Hk. apply list_elem_of_In in Hk. apply list_elem_of_In.
  apply in_map_iff in Hk as ([k' v] & <- & Hin).
  destruct (Hmin _ _ Hin) as (<- & Hseen & _). simpl. now apply in_map.
Qed.

Lemma capped_snoc (h : list history_entry) e :
  length (capped (h ++ [e])) = Nat.min (length h + 1) 50
  /\ last (capped (h ++ [e])) = Some e
  /\ capped (h ++ [e]) `suffix_of` (h ++ [e]).
Proof.
  unfold capped, last_n, MAX_HISTORY_SIZE. rewrite length_app. simpl length.
  destruct (50 <? length h + 1)%nat eqn:E.
  - apply Nat.ltb_lt in E.
    split; [rewrite length_drop, length_app; simpl; lia|].
    split; [|apply suffix_drop].
    rewrite drop_app_le by lia. apply last_snoc.
  - apply Nat.ltb_ge in E.
    split; [rewrite ?length_app; simpl; lia|].
    split; [apply last_snoc|]. now exists [].
Qed.

(** ** A whole search *)

Section SearchFacts.

Variable geodesic_km : coords -> coords -> Q.
Variable overpass : nat -> response.


End SearchFacts.

(** ** Usage counters *)

(** X10. [update_usage_counters] adds one to the counter of the mood and
    one to the counter of the place, creating them at 1 when missing, and
    touches no other counter, no favorite and no history entry. Two
    updates give the same profile in either order. *)
Theorem update_usage_counters_exact_and_commute p m n m2 n2 :
  let p' := update_usage_counters p m n in
  (forall m', mood_count p' m'
              = mood_count p m' + (if decide (m' = m) then 1 else 0))
  /\ (forall n', place_count p' n'
                 = place_count p n' + (if decide (n' = n) then 1 else 0))
  /\ history p' = history p
  /\ favorites p' = favorites p
  /\ update_usage_counters p' m2 n2
     = update_usage_counters (update_usage_counters p m2 n2) m n.
Proof.
  intros p'. subst p'. unfold mood_count, place_count, update_usage_counters.
  simpl. split; [|split; [|split; [|split]]]; try reflexivity.
  - intros m'. destruct (decide (m' = m)) as [->|Hne].
    + now rewrite lookup_insert_eq.
    + rewrite lookup_insert_ne by congruence. lia.
  - intros n'. destruct (decide (n' = n)) as [->|Hne].
    + now rewrite lookup_insert_eq.
    + rewrite lookup_insert_ne by congruence. lia.
  - f_equal; f_equal; apply map_eq; intros i.
    + destruct (decide (m2 = m)) as [->|Hne].
      * now rewrite !lookup_insert_eq.
      * destruct (decide (i = m)) as [Hi|Hi];
          destruct (decide (i = m2)) as [Hi2|Hi2]; subst;
          rewrite ?lookup_insert_eq, ?lookup_insert_ne by congruence;
          rewrite ?lookup_insert_eq, ?lookup_insert_ne by congruence;
          congruence.
    + destruct (decide (n2 = n)) as [->|Hne].
      * now rewrite !lookup_insert_eq.
      * destruct (decide (i = n)) as [Hi|Hi];
          destruct (decide (i = n2)) as [Hi2|Hi2]; subst;
          rewrite ?lookup_insert_eq, ?lookup_insert_ne by congruence;
          rewrite ?lookup_insert_eq, ?lookup_insert_ne by congruence;
          congruence.
Qed.

(** ** Removing a favorite *)

Lemma without_name_filter n favs favs' :
  without_name n favs = Ok favs' ->
  favs' = List.filter (fun fav => negb (is_named n fav)) favs.
Proof.
  revert favs'. induction favs as [|[n0 t0|] r IH]; intros favs' H; simpl in H.
  - now injection H as <-.
  - destruct (without_name n r) as [r'|e]; [|discriminate].
    simpl in H. injection H as <-. rewrite (IH r' eq_refl). simpl.
    now destruct (String.eqb n0 n).
  - discriminate.
Qed.

Lemma without_name_raises n favs e :
  without_name n favs = Raise e -> e = AttributeError /\ In FavOther favs.
Proof.
  induction favs as [|[n0 t0|] r IH]; simpl; intros H.
  - discriminate.
  - destruct (without_name n r) as [r'|e'] eqn:E; [discriminate|].
    simpl in H. injection H as ->. destruct (IH eq_refl) as [-> Hin].
    split; [reflexivity|now right].
  - injection H as <-. split; [reflexivity|now left].
Qed.

Lemma without_name_again n favs favs' :
  without_name n favs = Ok favs' -> without_name n favs' = Ok favs'.
Proof.
  revert favs'. induction favs as [|[n0 t0|] r IH]; intros favs' H; simpl in H.
  - now injection H as <-.
  - destruct (without_name n r) as [r'|e]; [|discriminate].
    simpl in H. injection H as <-. specialize (IH r' eq_refl).
    destruct (String.eqb n0 n) eqn:E; [exact IH|].
    simpl. rewrite IH. simpl. now rewrite E.
  - discriminate.
Qed.

Lemma any_named_filter n favs :
  any_named n (List.filter (fun fav => negb (is_named n fav)) favs) = false.
Proof.
  apply not_true_iff_false. unfold any_named. rewrite existsb_exists.
  intros (fav & Hin & Hn). apply filter_In in Hin as [_ Hkeep].
  destruct fav; simpl in *; [|discriminate]. now rewrite Hn in Hkeep.
Qed.


(** ** Favorites only grow *)

Lemma favorites_for_mood_grows places p m0 :
  let p1 := favorites_for_mood places p m0 in
  history p1 = history p
  /\ (forall m, fav_list_of p m `prefix_of` fav_list_of p1 m
                /\ (length (fav_list_of p1 m)
                    <= length (fav_list_of p m)
                       + (if bool_decide (m0 = m) then 1 else 0))%nat
                /\ mood_count p m <= mood_count p1 m)
  /\ (forall n, place_count p n <= place_count p1 n).
Proof.
  destruct (favorites_for_mood_spec places p m0) as (Hh & Hf & Hm & Hp).
  pose proof (new_favorite_length m0 places p) as Hlen.
  split; [exact Hh|]. split.
  - intros m. rewrite Hf, Hm.
    destruct (decide (m = m0)) as [->|Hne].
    + rewrite bool_decide_eq_true_2 by reflexivity.
      split; [now apply prefix_app_r|].
      rewrite length_app. split; lia.
    + rewrite bool_decide_eq_false_2 by congruence.
      split; [reflexivity|]. split; lia.
  - intros n. rewrite Hp. case_bool_decide; lia.
Qed.

(** X12. For any list of moods, with or without repeats, the favorites
    update of a search only appends: every mood's old list is a prefix of
    its new one, which is longer by at most the number of times the mood
    is listed. No usage counter goes down, and the history is untouched. *)
Theorem update_favorites_only_grows moods places p :
  let p' := update_favorites moods places p in
  history p' = history p
  /\ (forall m, fav_list_of p m `prefix_of` fav_list_of p' m
                /\ (length (fav_list_of p' m)
                    <= length (fav_list_of p m) + occurrences m moods)%nat
                /\ mood_count p m <= mood_count p' m)
  /\ (forall n, place_count p n <= place_count p' n).
Proof.
  unfold update_favorites. revert p.
  induction moods as [|m0 rest IH]; intros p; simpl.
  - split; [reflexivity|]. split; [|intros; lia].
    intros m. split; [reflexivity|]. unfold occurrences. simpl. split; lia.
  - destruct (favorites_for_mood_grows places p m0) as (Hh1 & Hf1 & Hp1).
    destruct (IH (favorites_for_mood places p m0)) as (Hh & Hf & Hp).
    split; [now rewrite Hh|]. split.
    + intros m. destruct (Hf1 m) as (Hpre1 & Hlen1 & Hm1).
      destruct (Hf m) as (Hpre & Hlen & Hm).
      split; [now transitivity (fav_list_of (favorites_for_mood places p m0) m)|].
      split; [|lia].
      unfold occurrences in *. simpl.
      destruct (bool_decide (m0 = m)); simpl length; lia.
    + intros n. specialize (Hp1 n). specialize (Hp n). lia.
Qed.

(** ** Geocoding: the cost of failure *)

Lemma backoff_total d k :
  (total_seconds (backoff d k) == d * (inject_Z (2 ^ Z.of_nat k) - 1))%Q.
Proof.
  revert d. induction k as [|k IH]; intros d.
  - change (total_seconds (backoff d 0)) with 0%Q.
    change (inject_Z (2 ^ Z.of_nat 0)) with 1%Q. ring.
  - change (total_seconds (backoff d (S k)))
      with (d + total_seconds (backoff (d * 2) k))%Q.
    rewrite IH. rewrite Nat2Z.inj_succ, Z.pow_succ_r by lia.
    rewrite inject_Z_mult. change (inject_Z 2) with 2%Q. ring.
Qed.

Lemma pow2_ge_1 k : (1 <= inject_Z (2 ^ Z.of_nat k))%Q.
Proof.
  change 1%Q with (inject_Z 1). rewrite <- Zle_Qle.
  pose proof (Z.pow_pos_nonneg 2 (Z.of_nat k) ltac:(lia) ltac:(lia)). lia.
Qed.

Lemma backoff_sleepable k : forall d,
  (0 <= d)%Q ->
  (d * inject_Z (2 ^ Z.of_nat k) <= max_sleep_seconds)%Q ->
  Forall sleepable (backoff d k).
Proof.
  induction k as [|k IH]; intros d Hpos Hmax; simpl; [constructor|].
  pose proof (pow2_ge_1 k) as Hk.
  assert (Hpow : (inject_Z (2 ^ Z.of_nat (S k))
                  == 2 * inject_Z (2 ^ Z.of_nat k))%Q).
  { rewrite Nat2Z.inj_succ, Z.pow_succ_r by lia.
    rewrite inject_Z_mult. reflexivity. }
  rewrite Hpow in Hmax. clear Hpow.
  constructor.
  - split; [exact Hpos|]. revert Hk Hmax.
    generalize (inject_Z (2 ^ Z.of_nat k)). intros x Hk Hmax. nra.
  - apply IH; [lra|]. revert Hk Hmax.
    generalize (inject_Z (2 ^ Z.of_nat k)). intros x Hk Hmax. nra.
Qed.

Lemma range_length a n : length (range a n) = n.
Proof. unfold range. now rewrite length_map, length_seq. Qed.

Section GeocodeCost.

Variable geocoder : nat -> geocode_outcome.


End GeocodeCost.

(** ** One appended history entry *)

(** X14. On a profile with a history of any length, [save_history]
    succeeds and changes the history only; the history of the resulting
    profile has the old length plus one, or 50 if that is less, it ends
    with the new entry, and it is the end of the old history followed by
    the new entry. *)
Theorem save_history_bounded p h e :
  history p = Some h ->
  exists p' h',
    save_history p e = Ok p'
    /\ history p' = Some h'
    /\ favorites p' = favorites p
    /\ mood_usage p' = mood_usage p
    /\ place_usage p' = place_usage p
    /\ length h' = Nat.min (length h + 1) 50
    /\ last h' = Some e
    /\ h' `suffix_of` (h ++ [e]).
Proof.
  intros Hh. unfold save_history. rewrite Hh.
  eexists _, _. split; [reflexivity|]. simpl.
  split; [reflexivity|].
  split; [reflexivity|]. split; [reflexivity|]. split; [reflexivity|].
  apply (capped_snoc h e).
Qed.

(** ** The cache across a restart *)

Lemma items_set_fresh k v d :
  ~ In k (map fst d) -> items_set k v d = d ++ [(k, v)].
Proof.
  induction d as [|[k0 v0] r IH]; simpl; [reflexivity|].
  intros Hnin. destruct (String.eqb_spec k k0) as [->|Hne].
  - exfalso. apply Hnin. now left.
  - rewrite IH; [reflexivity|]. intros Hin. apply Hnin. now right.
Qed.

Section CacheRoundTrip.

Variable py_str : cache_key -> string.
Variable py_eval : string -> option cache_key.

Lemma items_fold_distinct (l : list (cache_key * list Place)) : forall d,
  NoDup (map (fun kv => py_str (fst kv)) l) ->
  (forall kv, In kv l -> ~ In (py_str (fst kv)) (map fst d)) ->
  fold_left (fun d kv => items_set (py_str (fst kv)) (snd kv) d) l d
  = d ++ map (fun kv => (py_str (fst kv), snd kv)) l.
Proof.
  induction l as [|[k v] r IH]; intros d Hnd Hfresh; simpl.
  - now rewrite app_nil_r.
  - apply NoDup_cons in Hnd as [Hk Hnd].
    rewrite items_set_fresh by (apply (Hfresh (k, v)); now left).
    rewrite IH; [now rewrite <- app_assoc|exact Hnd|].
    intros kv Hkv. rewrite map_app, in_app_iff. simpl.
    intros [Hin|[Heq|[]]].
    + apply (Hfresh kv); [now right|exact Hin].
    + apply Hk. apply list_elem_of_In. apply in_map_iff.
      exists kv. split; [symmetry; exact Heq|exact Hkv].
Qed.

Lemma eval_items_inverse (l : list (cache_key * list Place)) : forall acc,
  (forall kv, In kv l -> py_eval (py_str (fst kv)) = Some (fst kv)) ->
  NoDup (map fst l) ->
  eval_items py_eval (map (fun kv => (py_str (fst kv), snd kv)) l) acc
  = Ok (list_to_map l ∪ acc).
Proof.
  induction l as [|[k v] r IH]; intros acc Hinv Hnd; simpl.
  - now rewrite (left_id_L ∅ (∪)).
  - pose proof (Hinv (k, v) (or_introl eq_refl)) as Hkv. simpl in Hkv.
    rewrite Hkv. apply NoDup_cons in Hnd as [Hk Hnd].
    rewrite IH; [|intros kv' Hkv'; apply Hinv; now right|exact Hnd].
    f_equal. rewrite <- insert_union_r, insert_union_l; [reflexivity|].
    apply not_elem_of_list_to_map_1. exact Hk.
Qed.

(** X15. When [eval] gives back every key of the cache from its [str],
    loading the file that [save_cache] wrote restores exactly the cache
    that was saved: the same keys with the same lists. *)
Theorem load_cache_after_save_cache (cache : gmap cache_key (list Place)) :
  (forall k, is_Some (cache !! k) -> py_eval (py_str k) = Some k) ->
  load_cache py_eval (save_cache py_str cache) = Ok cache.
Proof.
  intros Hinv. unfold save_cache, load_cache.
  assert (Hl : forall kv, In kv (map_to_list cache) ->
                          py_eval (py_str (fst kv)) = Some (fst kv)).
  { intros [k v] Hin. apply Hinv. apply list_elem_of_In in Hin.
    apply elem_of_map_to_list in Hin. exists v. exact Hin. }
  pose proof (NoDup_fst_map_to_list cache) as Hnd.
  assert (Hstr : NoDup (map (fun kv => py_str (fst kv)) (map_to_list cache))).
  { change (map (fun kv => py_str (fst kv)) (map_to_list cache))
      with ((fun kv : cache_key * list Place => py_str (fst kv))
              <$> map_to_list cache).
    apply NoDup_fmap_2_strong; [|apply NoDup_map_to_list].
    intros [k1 v1] [k2 v2] H1 H2 Heq. simpl in Heq.
    apply list_elem_of_In in H1. apply list_elem_of_In in H2.
    pose proof (Hl _ H1) as E1. pose proof (Hl _ H2) as E2. simpl in *.
    rewrite Heq in E1. rewrite E1 in E2. injection E2 as ->.
    apply list_elem_of_In in H1. apply list_elem_of_In in H2.
    apply elem_of_map_to_list in H1. apply elem_of_map_to_list in H2.
    congruence. }
  rewrite items_fold_distinct; [|exact Hstr|intros ? _ []].
  simpl. rewrite eval_items_inverse by assumption.
  now rewrite (right_id_L ∅ (∪)), list_to_map_to_list.
Qed.

End CacheRoundTrip.

(** ** Manual mood selection *)

Example split_commas_and_spaces :
  split (replace_commas " 1,  sad ,9 ") = ["1"; "sad"; "9"]%string.
Proof. reflexivity. Qed.

Example strip_both_ends : strip "  a b  " = "a b"%string.
Proof. reflexivity. Qed.

Example manual_selection_by_number_and_name :
  manual_mood_selection 4300 remove_dups MOOD_NAMES " 3, Happy 7 x 0 3"
  = Parsed ["happy"; "adventurous"]%string
  /\ manual_mood_selection 4300 remove_dups MOOD_NAMES "" = Parsed ["happy"%string]
  /\ manual_mood_selection 4300 remove_dups MOOD_NAMES "9 nothing"
     = Parsed ["happy"%string].
Proof. vm_compute. repeat split. Qed.

Lemma lower_length s : String.length (lower s) = String.length s.
Proof. induction s as [|c r IH]; simpl; [reflexivity|now rewrite IH]. Qed.

Lemma replace_commas_length s :
  String.length (replace_commas s) = String.length s.
Proof. induction s as [|c r IH]; simpl; [reflexivity|now rewrite IH]. Qed.

Lemma lstrip_length s : (String.length (lstrip s) <= String.length s)%nat.
Proof.
  induction s as [|c r IH]; simpl; [lia|].
  destruct (is_space c); simpl; lia.
Qed.

Lemma rstrip_length s : (String.length (rstrip s) <= String.length s)%nat.
Proof.
  induction s as [|c r IH]; simpl; [lia|].
  destruct (rstrip r) as [|c' r'] eqn:E.
  - destruct (is_space c); simpl; lia.
  - simpl in *. lia.
Qed.

Lemma strip_length s : (String.length (strip s) <= String.length s)%nat.
Proof.
  unfold strip. etransitivity; [apply rstrip_length|apply lstrip_length].
Qed.

Lemma append_length (a b : string) :
  String.length (a ++ b) = (String.length a + String.length b)%nat.
Proof. induction a as [|c r IH]; simpl; [reflexivity|now rewrite IH]. Qed.

Lemma split_from_length s : forall cur token,
  In token (split_from s cur) ->
  (String.length token <= String.length cur + String.length s)%nat.
Proof.
  induction s as [|c r IH]; intros cur token; simpl.
  - destruct cur; [intros []|]. intros [<-|[]]. lia.
  - destruct (is_space c).
    + destruct cur as [|c0 cur0].
      * intros Hin. specialize (IH _ _ Hin). simpl in *. lia.
      * intros [<-|Hin]; [lia|]. specialize (IH _ _ Hin). simpl in *. lia.
    + intros Hin. specialize (IH _ _ Hin).
      rewrite append_length in IH. simpl in *. lia.
Qed.

Section ManualSelectionFacts.

Variable int_max_str_digits : nat.
Variable list_of_name_set : list string -> list string.
Hypothesis list_of_name_set_spec :
  forall l, NoDup (list_of_name_set l)
            /\ forall m, In m (list_of_name_set l) <-> In m l.

Lemma select_tokens_sound available tokens : forall selected,
  match select_tokens int_max_str_digits available tokens selected with
  | Parsed l =>
      (exists more, l = selected ++ more
                    /\ forall m, In m more -> In m available)
  | ValueError =>
      (0 < int_max_str_digits)%nat
      /\ exists token, In token tokens
                       /\ (int_max_str_digits < String.length token)%nat
  end.
Proof.
  induction tokens as [|token rest IH]; intros selected; simpl.
  - exists []. split; [now rewrite app_nil_r|intros ? []].
  - assert (Hkeep :
      match select_tokens int_max_str_digits available rest selected with
      | Parsed l =>
          exists more, l = selected ++ more
                       /\ forall m, In m more -> In m available
      | ValueError =>
          (0 < int_max_str_digits)%nat
          /\ exists token0, (token = token0 \/ In token0 rest)
                            /\ (int_max_str_digits < String.length token0)%nat
      end).
    { specialize (IH selected).
      destruct (select_tokens int_max_str_digits available rest selected);
        [exact IH|].
      destruct IH as (Hpos & t & Hin & Hlen). split; [exact Hpos|].
      exists t. split; [now right|exact Hlen]. }
    assert (Hadd : forall m, In m available ->
      match select_tokens int_max_str_digits available rest
              (selected ++ [m]) with
      | Parsed l =>
          exists more, l = selected ++ more
                       /\ forall m, In m more -> In m available
      | ValueError =>
          (0 < int_max_str_digits)%nat
          /\ exists token0, (token = token0 \/ In token0 rest)
                            /\ (int_max_str_digits < String.length token0)%nat
      end).
    { intros m Hm. specialize (IH (selected ++ [m])).
      destruct (select_tokens int_max_str_digits available rest
                  (selected ++ [m])) as [l|].
      - destruct IH as (more & -> & Hmore). exists (m :: more).
        split; [now rewrite <- app_assoc|].
        intros x [<-|Hx]; [exact Hm|now apply Hmore].
      - destruct IH as (Hpos & t & Hin & Hlen). split; [exact Hpos|].
        exists t. split; [now right|exact Hlen]. }
    destruct (isdigit token).
    + unfold py_int.
      destruct ((0 <? int_max_str_digits)%nat
                && (int_max_str_digits <? String.length token)%nat) eqn:El.
      * apply andb_true_iff in El as [Hpos Hlen].
        apply Nat.ltb_lt in Hpos. apply Nat.ltb_lt in Hlen.
        split; [exact Hpos|]. exists token. split; [now left|exact Hlen].
      * destruct ((0 <=? decimal_value token 0 - 1)
                  && (decimal_value token 0 - 1
                      <? Z.of_nat (length available))) eqn:Er;
          [|exact Hkeep].
        apply Hadd. apply andb_true_iff in Er as [H0 Hlt].
        apply Z.leb_le in H0. apply Z.ltb_lt in Hlt.
        apply nth_In. lia.
    + destruct (existsb (String.eqb token) available) eqn:Ex; [|exact Hkeep].
      apply Hadd. apply existsb_exists in Ex as (m & Hm & Heq).
      apply String.eqb_eq in Heq. now subst.
Qed.

Lemma take_one_nonempty (available : list string) :
  available <> [] -> take 1 available <> [].
Proof. destruct available; [tauto|discriminate]. Qed.

Lemma manual_mood_selection_nonempty available typed l :
  manual_mood_selection int_max_str_digits list_of_name_set available typed
  = Parsed l ->
  available <> [] -> l <> [].
Proof.
  unfold manual_mood_selection. intros Hsel Hav.
  destruct (lower (strip typed)) as [|c0 r0].
  - injection Hsel as <-. now apply take_one_nonempty.
  - destruct (select_tokens int_max_str_digits available
                (split (replace_commas (String c0 r0))) [])
      as [[|s0 sel]|]; [| |discriminate].
    + injection Hsel as <-. now apply take_one_nonempty.
    + injection Hsel as <-. intros Hnil.
      pose proof (proj2 (proj2 (list_of_name_set_spec (s0 :: sel)) s0)
                    (or_introl eq_refl)) as H0.
      rewrite Hnil in H0. contradiction.
Qed.

(** X16. On a line of ASCII characters, [manual_mood_selection] returns
    only names of the available moods, each at most once, and never the
    empty list when a mood is available; numbers out of range and unknown
    words are passed over. The only exception it can raise on such a line
    is the [ValueError] of [int], and only for a line longer than the
    digit limit of the interpreter. *)
Theorem manual_mood_selection_sound available typed :
  is_ascii typed = true ->
  match manual_mood_selection int_max_str_digits list_of_name_set
          available typed with
  | Parsed l =>
      (forall m, In m l -> In m available)
      /\ NoDup l
      /\ (available <> [] -> l <> [])
  | ValueError =>
      (0 < int_max_str_digits)%nat
      /\ (int_max_str_digits < String.length typed)%nat
  end.
Proof.
  intros _.
  assert (Hfirst : (forall m, In m (take 1 available) -> In m available)
                   /\ NoDup (take 1 available)
                   /\ (available <> [] -> take 1 available <> [])).
  { destruct available as [|a r]; simpl.
    - split; [intros ? []|]. split; [constructor|]. intros H. now apply H.
    - rewrite take_0. split; [intros m [<-|[]]; now left|].
      split; [apply NoDup_singleton|]. discriminate. }
  unfold manual_mood_selection.
  destruct (lower (strip typed)) as [|c0 r0] eqn:Einput; [exact Hfirst|].
  rewrite <- Einput.
  pose proof (select_tokens_sound available
                (split (replace_commas (lower (strip typed)))) []) as Hsel.
  destruct (select_tokens int_max_str_digits available
              (split (replace_commas (lower (strip typed)))) [])
    as [[|s0 sel]|].
  - exact Hfirst.
  - destruct Hsel as (more & Heq & Hmore). simpl in Heq. subst more.
    destruct (list_of_name_set_spec (s0 :: sel)) as [Hnd Hin].
    split; [|split; [exact Hnd|]].
    + intros m Hm. apply Hmore. now apply Hin.
    + intros _ Hnil. pose proof (proj2 (Hin s0) (or_introl eq_refl)) as H0.
      rewrite Hnil in H0. contradiction.
  - destruct Hsel as (Hpos & token & Hin & Hlen). split; [exact Hpos|].
    apply split_from_length in Hin. simpl in Hin.
    rewrite replace_commas_length, lower_length in Hin.
    pose proof (strip_length typed). lia.
Qed.


(** X17. The moods that [main] searches for never depend on the moods
    detected in the text: the manual selection over the three catalog
    moods is never empty, so the detected moods are not used. An empty
    line at the selection prompt selects "happy". *)
Theorem choose_moods_ignores_detected auto_moods auto_moods' typed :
  choose_moods int_max_str_digits list_of_name_set auto_moods typed
  = choose_moods int_max_str_digits list_of_name_set auto_moods' typed
  /\ choose_moods int_max_str_digits list_of_name_set auto_moods ""
     = Parsed ["happy"%string].
Proof.
  split; [|reflexivity]. unfold choose_moods.
  destruct (manual_mood_selection int_max_str_digits list_of_name_set
              MOOD_NAMES typed) as [[|m l]|] eqn:E; try reflexivity.
  exfalso. now apply (manual_mood_selection_nonempty _ _ _ E).
Qed.

End ManualSelectionFacts.

(** ** The fetches of one search *)

Section FetchAllFacts.

Variable geodesic_km : coords -> coords -> Q.
Variable overpass : nat -> response.

(** X18. When the key of every selected mood is in the cache, the fetches
    of a search return the cached lists, concatenated in the order of the
    moods, and leave the world as it is: no request and no sleep. *)
Theorem fetch_all_cached user_loc radius_m w moods :
  (forall m, In m moods ->
             is_Some (CACHE w !! make_cache_key user_loc m radius_m)) ->
  fetch_all geodesic_km overpass user_loc moods radius_m w
  = (concat (map (fun m => default []
                              (CACHE w !! make_cache_key user_loc m radius_m))
                 moods), w).
Proof.
  induction moods as [|m rest IH]; intros Hall; simpl; [reflexivity|].
  destruct (Hall m (or_introl eq_refl)) as [cached Hc].
  rewrite (fetch_overpass_hit _ _ _ _ _ _ _ Hc), Hc. simpl.
  rewrite IH; [reflexivity|]. intros m' Hm'. apply Hall. now right.
Qed.

(** X19. The fetches of a search over [n] moods make at most [3 * n]
    requests and call no geocoder; they remove no cache entry, and change
    none whose key is not the key of a selected mood. *)
Theorem fetch_all_frame user_loc radius_m moods : forall w,
  let w' := snd (fetch_all geodesic_km overpass user_loc moods radius_m w) in
  (requests_made w <= requests_made w'
   <= requests_made w + 3 * length moods)%nat
  /\ geocodes_made w' = geocodes_made w
  /\ (forall key, is_Some (CACHE w !! key) -> is_Some (CACHE w' !! key))
  /\ (forall key,
        (forall m, In m moods -> key <> make_cache_key user_loc m radius_m) ->
        CACHE w' !! key = CACHE w !! key).
Proof.
  induction moods as [|m rest IH]; intros w; simpl.
  - split; [lia|]. split; [reflexivity|]. split; [tauto|reflexivity].
  - pose proof (fetch_overpass_requests_cache geodesic_km overpass user_loc m
                  radius_m w) as (Hr1 & Hg1 & Hother1 & Hkeep1).
    destruct (fetch_overpass geodesic_km overpass user_loc m radius_m w)
      as [places w1]. simpl in *.
    specialize (IH w1).
    destruct (fetch_all geodesic_km overpass user_loc rest radius_m w1)
      as [more w2]. simpl in *.
    destruct IH as (Hr & Hg & Hkeep & Hother).
    split; [lia|]. split; [congruence|]. split.
    + intros key Hk. now apply Hkeep, Hkeep1.
    + intros key Hne. rewrite Hother, Hother1; [reflexivity| |].
      * apply Hne. now left.
      * intros m' Hm'. apply Hne. now right.
Qed.

End FetchAllFacts.

(** ** The further properties at sample inputs *)

Lemma fetch_overpass_first_success_witness :
  CACHE fresh_world !! make_cache_key (0, 0)%Q happy 2500 = None
  /\ (1 < 3)%nat
  /\ (forall j, (j < 1)%nat ->
        flaky_overpass (requests_made fresh_world + j) = RequestException)
  /\ flaky_overpass (requests_made fresh_world + 1) = Json three_cafes
  /\ requests_made
       (snd (fetch_overpass by_longitude flaky_overpass (0, 0)%Q happy 2500
               fresh_world)) = 2%nat
  /\ slept (snd (fetch_overpass by_longitude flaky_overpass (0, 0)%Q happy
                   2500 fresh_world)) = [2 # 1]%Q.
Proof.
  assert (H1 : CACHE fresh_world !! make_cache_key (0, 0)%Q happy 2500 = None)
    by reflexivity.
  assert (H2 : (1 < 3)%nat) by lia.
  assert (H3 : forall j, (j < 1)%nat ->
             flaky_overpass (requests_made fresh_world + j)
             = RequestException).
  { intros j Hj. assert (j = 0%nat) as -> by lia. reflexivity. }
  assert (H4 : flaky_overpass (requests_made fresh_world + 1)
               = Json three_cafes) by reflexivity.
  pose proof (fetch_overpass_first_success by_longitude flaky_overpass
                (0, 0)%Q happy 2500 fresh_world 1 three_cafes H1 H2 H3 H4)
    as (_ & _ & Hr & Hs).
  repeat split; assumption.
Defined.

Lemma fresh_world_sorted : cache_sorted fresh_world.
Proof. intros k v H. simpl in H. now rewrite lookup_empty in H. Qed.

Lemma fetch_overpass_keeps_cache_sorted_witness :
  cache_sorted fresh_world
  /\ StronglySorted by_distance
       (fst (fetch_overpass by_longitude flaky_overpass (0, 0)%Q happy 2500
               fresh_world))
  /\ cache_sorted
       (snd (fetch_overpass by_longitude flaky_overpass (0, 0)%Q happy 2500
               fresh_world)).
Proof.
  split; [exact fresh_world_sorted|].
  apply (fetch_overpass_keeps_cache_sorted by_longitude flaky_overpass
           (0, 0)%Q happy 2500 fresh_world fresh_world_sorted).
Defined.

Lemma fetch_overpass_stable_permutation_witness :
  CACHE fresh_world !! make_cache_key (0, 0)%Q happy 2500 = None
  /\ flaky_overpass (requests_made fresh_world + 1) = Json three_cafes
  /\ fst (fetch_overpass by_longitude flaky_overpass (0, 0)%Q happy 2500
            fresh_world)
     ≡ₚ places_of_data by_longitude (0, 0)%Q three_cafes.
Proof.
  assert (H1 : CACHE fresh_world !! make_cache_key (0, 0)%Q happy 2500 = None)
    by reflexivity.
  assert (H3 : forall j, (j < 1)%nat ->
             flaky_overpass (requests_made fresh_world + j)
             = RequestException).
  { intros j Hj. assert (j = 0%nat) as -> by lia. reflexivity. }
  assert (H4 : flaky_overpass (requests_made fresh_world + 1)
               = Json three_cafes) by reflexivity.
  split; [exact H1|]. split; [exact H4|].
  apply (fetch_overpass_stable_permutation by_longitude flaky_overpass
           (0, 0)%Q happy 2500 fresh_world 1 three_cafes H1
           ltac:(lia) H3 H4).
Defined.

Lemma place_of_element_sound_witness :
  place_of_element by_longitude (0, 0)%Q (cafe_at (5 # 10))
  = Some (mkPlace "Unnamed" (1 # 1) (5 # 10) (5 # 10)
            {[ "amenity" := "cafe" ]}%string)
  /\ ~ (lon (mkPlace "Unnamed" (1 # 1) (5 # 10) (5 # 10)
               {[ "amenity" := "cafe" ]}%string) == 0)%Q.
Proof.
  assert (H : place_of_element by_longitude (0, 0)%Q (cafe_at (5 # 10))
              = Some (mkPlace "Unnamed" (1 # 1) (5 # 10) (5 # 10)
                        {[ "amenity" := "cafe" ]}%string))
    by reflexivity.
  split; [exact H|].
  apply (place_of_element_sound by_longitude (0, 0)%Q (cafe_at (5 # 10))
           _ H).
Defined.

Lemma combined_places_of_absorbs_witness :
  (forall p, In p [central_perk] -> In p sample_places)
  /\ combined_places_of (sample_places ++ [central_perk])
     = combined_places_of sample_places.
Proof.
  assert (H : forall p, In p [central_perk] -> In p sample_places).
  { intros p [<-|[]]. now left. }
  split; [exact H|].
  apply (combined_places_of_absorbs sample_places [central_perk] H).
Defined.


Lemma save_history_bounded_witness :
  history empty_profile = Some []
  /\ exists p' h',
      save_history empty_profile (sample_entry 0) = Ok p'
      /\ history p' = Some h'
      /\ favorites p' = favorites empty_profile
      /\ mood_usage p' = mood_usage empty_profile
      /\ place_usage p' = place_usage empty_profile
      /\ length h' = Nat.min (length (@nil history_entry) + 1) 50
      /\ last h' = Some (sample_entry 0)
      /\ h' `suffix_of` ([] ++ [sample_entry 0]).
Proof.
  split; [reflexivity|].
  apply (save_history_bounded empty_profile [] (sample_entry 0) eq_refl).
Defined.

Lemma load_cache_after_save_cache_witness :
  (forall k, is_Some (CACHE warm_world !! k) ->
             (fun _ : string => Some origin_key)
               ((fun _ : cache_key => "(0.0, 0.0, 'happy', 2500)"%string) k)
             = Some k)
  /\ load_cache (fun _ => Some origin_key)
       (save_cache (fun _ => "(0.0, 0.0, 'happy', 2500)"%string)
          (CACHE warm_world))
     = Ok (CACHE warm_world).
Proof.
  assert (H : forall k, is_Some (CACHE warm_world !! k) ->
             (fun _ : string => Some origin_key)
               ((fun _ : cache_key => "(0.0, 0.0, 'happy', 2500)"%string) k)
             = Some k).
  { intros k [v Hv]. simpl in Hv.
    destruct (decide (k = origin_key)) as [->|Hne]; [reflexivity|].
    rewrite lookup_insert_ne, lookup_empty in Hv by congruence.
    discriminate. }
  split; [exact H|].
  apply (load_cache_after_save_cache _ _ (CACHE warm_world) H).
Defined.

Lemma remove_dups_is_name_set (l : list string) :
  NoDup (remove_dups l) /\ forall m, In m (remove_dups l) <-> In m l.
Proof.
  split; [apply NoDup_remove_dups|].
  intros m. rewrite <- !list_elem_of_In. apply elem_of_remove_dups.
Qed.

Lemma manual_mood_selection_sound_witness :
  (forall l : list string,
      NoDup (remove_dups l) /\ forall m, In m (remove_dups l) <-> In m l)
  /\ is_ascii "2, happy" = true
  /\ match manual_mood_selection 4300 remove_dups MOOD_NAMES "2, happy" with
     | Parsed l =>
         (forall m, In m l -> In m MOOD_NAMES)
         /\ NoDup l
         /\ (MOOD_NAMES <> [] -> l <> [])
     | ValueError =>
         (0 < 4300)%nat /\ (4300 < String.length "2, happy")%nat
     end.
Proof.
  split; [exact remove_dups_is_name_set|]. split; [reflexivity|].
  apply (manual_mood_selection_sound 4300 remove_dups
           remove_dups_is_name_set MOOD_NAMES "2, happy" eq_refl).
Defined.

Lemma choose_moods_ignores_detected_witness :
  (forall l : list string,
      NoDup (remove_dups l) /\ forall m, In m (remove_dups l) <-> In m l)
  /\ choose_moods 4300 remove_dups ["sad"%string] "1"
     = choose_moods 4300 remove_dups ["adventurous"%string] "1"
  /\ choose_moods 4300 remove_dups ["sad"%string] ""
     = Parsed ["happy"%string].
Proof.
  split; [exact remove_dups_is_name_set|].
  apply (choose_moods_ignores_detected 4300 remove_dups
           remove_dups_is_name_set ["sad"%string] ["adventurous"%string] "1").
Defined.

Lemma fetch_all_cached_witness :
  (forall m, In m [happy] ->
             is_Some (CACHE warm_world !! make_cache_key (0, 0)%Q m 2500))
  /\ fetch_all by_longitude flaky_overpass (0, 0)%Q [happy] 2500 warm_world
     = (concat (map (fun m => default []
                                 (CACHE warm_world
                                  !! make_cache_key (0, 0)%Q m 2500))
                    [happy]), warm_world).
Proof.
  assert (H : forall m, In m [happy] ->
             is_Some (CACHE warm_world !! make_cache_key (0, 0)%Q m 2500)).
  { intros m [<-|[]]. exists [central_perk]. reflexivity. }
  split; [exact H|].
  apply (fetch_all_cached by_longitude flaky_overpass (0, 0)%Q 2500
           warm_world [happy] H).
Defined.

Example fetch_all_cached_sample :
  fetch_all by_longitude flaky_overpass (0, 0)%Q [happy] 2500 warm_world
  = ([central_perk], warm_world).
Proof. reflexivity. Qed.

Lemma happy_sad_distinct : NoDup [happy; sad].
Proof.
  repeat constructor; intros H;
    repeat (apply elem_of_cons in H as [H|H]; [discriminate|]);
    now apply not_elem_of_nil in H.
Qed.

